(** * wiki_fetch: paragraph segmentation, content identifiers, incremental merge

    A shallow embedding of [src/scraping/wiki_fetch.py].  Python values are
    rendered as follows:
    - [str] is a list of Unicode scalar values, so slicing and [len] count
      code points as Python does; a lone surrogate, on which
      [bytes(name, "utf-8")] raises, is not a [char];
    - [int] is [Z], and [nat] for the counters that only count up from 0;
    - [dict] is a [gmap], [set] is a [gset];
    - the compiled patterns of [re] are run by a small backtracking matcher
      that tries alternatives in the order Python's matcher does;
    - [hashlib.sha1] and [uuid.uuid5] are computed on bytes held in [Z];
    - the output file is its text, a [str] (the file is read and written
      as UTF-8), or [None] when the path does not exist; [csv.writer] adds
      characters at its end and [csv.reader] parses the text into records,
      as CPython 3.11 does;
    - an exception that [main] does not catch ends the run and is kept in
      the state the run ends with;
    - [fetch_plaintext_extract] is a function from titles to texts that the
      driver takes as an argument, [None] where the call raises; [main]
      starts where the command line has been read. *)

From Stdlib Require Import ZArith NArith Ascii String DecimalString.
From stdpp Require Import gmap list.

Local Open Scope Z_scope.

(** ** Strings *)

Definition is_scalar (n : N) : bool :=
  (negb (0xD7FF <? n) || ((0xDFFF <? n) && negb (0x10FFFF <? n)))%N.

Definition char : Type := { n : N | is_scalar n }.

Abbreviation str := (list char).

Definition ord (c : char) : N := proj1_sig c.

Definition ascii_scalar (a : ascii) : is_scalar (N_of_ascii a).
Proof. destruct a as [[] [] [] [] [] [] [] []]; exact I. Qed.

Definition chr (a : ascii) : char := exist _ (N_of_ascii a) (ascii_scalar a).

(** A string literal of the source. *)
Definition py (s : string) : str := chr <$> list_ascii_of_string s.
Arguments py s%_string.

Definition char_eqb (c d : char) : bool := (ord c =? ord d)%N.

(** [str.isspace] on one character, which is also the class [\s] of [re]
    for [str] patterns. *)
Definition is_space (c : char) : bool :=
  let n := ord c in
  (((0x09 <=? n) && (n <=? 0x0D)) || ((0x1C <=? n) && (n <=? 0x20))
   || (n =? 0x85) || (n =? 0xA0) || (n =? 0x1680)
   || ((0x2000 <=? n) && (n <=? 0x200A))
   || (n =? 0x2028) || (n =? 0x2029) || (n =? 0x202F) || (n =? 0x205F)
   || (n =? 0x3000))%N.

Definition newline : char := chr "010".
Definition carriage_return : char := chr "013".
Definition is_eq_sign (c : char) : bool := char_eqb c (chr "=").
(** The class [.] without [re.DOTALL]. *)
Definition is_dot (c : char) : bool := negb (char_eqb c newline).

Fixpoint lstrip (s : str) : str :=
  match s with
  | c :: s' => if is_space c then lstrip s' else s
  | [] => []
  end.
Definition rstrip (s : str) : str := rev (lstrip (rev s)).
Definition strip (s : str) : str := rstrip (lstrip s).

(** Truthiness of a string: [if s] holds for the non-empty ones. *)
Definition truthy (s : str) : bool :=
  match s with [] => false | _ :: _ => true end.

Fixpoint starts_with (w s : str) : bool :=
  match w, s with
  | [], _ => true
  | a :: w', b :: s' => char_eqb a b && starts_with w' s'
  | _ :: _, [] => false
  end.

(** [s.replace(a, b)] for one-character [a] and [b]. *)
Definition replace_char (a b : char) (s : str) : str :=
  (fun c => if char_eqb c a then b else c) <$> s.

(** [sep.join(l)] *)
Fixpoint join (sep : str) (l : list str) : str :=
  match l with
  | [] => []
  | [x] => x
  | x :: l' => x ++ sep ++ join sep l'
  end.

(** [str(n)] for an [int], as the f-string renders the paragraph index
    (an index is far below the size at which Python refuses to print an
    [int]). *)
Definition str_of_int (n : Z) : str := py (NilZero.string_of_int (Z.to_int n)).

(** ** Regular expressions

    The fragment of [re] the program uses: anchors, a literal character, a
    greedy or lazy repetition of a character class (captured or not) and a
    back-reference.  [exec] is the backtracking search: a greedy repetition
    tries the longest run first, a lazy one the shortest, and the first
    alternative for which the rest of the pattern matches wins. *)

Inductive item :=
| Bol
| Eol
| Lit (c : char)
| Rep (greedy : bool) (lo : nat) (cls : char → bool) (grp : option nat)
| Backref (g : nat).

Abbreviation regex := (list item).

Fixpoint run_length (cls : char → bool) (s : str) : nat :=
  match s with
  | c :: s' => if cls c then S (run_length cls s') else O
  | [] => O
  end.

Definition counts (greedy : bool) (lo hi : nat) : list nat :=
  let up := seq lo (S hi - lo) in
  if greedy then rev up else up.

Fixpoint first_some {A B} (f : A → option B) (l : list A) : option B :=
  match l with
  | [] => None
  | x :: l' => match f x with Some y => Some y | None => first_some f l' end
  end.

Definition set_group (grp : option nat) (w : str) (gs : gmap nat str)
  : gmap nat str :=
  match grp with Some g => <[g := w]> gs | None => gs end.

(** [$] without [re.MULTILINE]: the end of the string, or just before a
    newline that ends it. *)
Definition at_end (s : str) : bool :=
  match s with
  | [] => true
  | [c] => char_eqb c newline
  | _ => false
  end.

(** [exec r pos s gs]: match [r] against the suffix [s] that starts at
    offset [pos] of the subject; the result is the offset where the match
    ends and the captured groups. *)
Fixpoint exec (r : regex) (pos : nat) (s : str) (gs : gmap nat str)
  : option (nat * gmap nat str) :=
  match r with
  | [] => Some (pos, gs)
  | Bol :: r' => if (pos =? 0)%nat then exec r' pos s gs else None
  | Eol :: r' => if at_end s then exec r' pos s gs else None
  | Lit c :: r' =>
      match s with
      | x :: s' => if char_eqb x c then exec r' (S pos) s' gs else None
      | [] => None
      end
  | Rep greedy lo cls grp :: r' =>
      first_some
        (fun n => exec r' (pos + n)%nat (drop n s) (set_group grp (take n s) gs))
        (counts greedy lo (run_length cls s))
  | Backref g :: r' =>
      match gs !! g with
      | Some w =>
          if starts_with w s
          then exec r' (pos + length w)%nat (drop (length w) s) gs
          else None
      | None => None
      end
  end.

(** [pattern.match(s)]: the groups of the match at the start of [s]. *)
Definition re_match (r : regex) (s : str) : option (gmap nat str) :=
  snd <$> exec r 0 s ∅.

(** [m.group(g)] for a group that took part in the match. *)
Definition group (m : gmap nat str) (g : nat) : str := default [] (m !! g).

(** [re.split(pattern, s)] for a pattern without groups that cannot match
    the empty string: the subject is scanned from the left, [skip] counts
    the characters of the current match still to pass over and [piece]
    holds, reversed, the characters since the last match. *)
Fixpoint split_scan (r : regex) (pos skip : nat) (piece s : str) : list str :=
  match s with
  | [] => [rev piece]
  | c :: s' =>
      match skip with
      | S k => split_scan r (S pos) k piece s'
      | O =>
          match exec r pos s ∅ with
          | Some (e, _) =>
              if (pos <? e)%nat
              then rev piece :: split_scan r (S pos) (e - pos - 1) [] s'
              else split_scan r (S pos) 0 (c :: piece) s'
          | None => split_scan r (S pos) 0 (c :: piece) s'
          end
      end
  end.

Definition re_split (r : regex) (s : str) : list str := split_scan r 0 0 [] s.

(** [HEADING_RE = re.compile(r"^(=+)\s*(.*?)\s*\1$")] *)
Definition HEADING_RE : regex :=
  [ Bol; Rep true 1 is_eq_sign (Some 1%nat); Rep true 0 is_space None;
    Rep false 0 is_dot (Some 2%nat); Rep true 0 is_space None;
    Backref 1; Eol ].

(** The pattern [r"\n\s*\n"] that separates blocks. *)
Definition BLANK_RE : regex := [ Lit newline; Rep true 0 is_space None; Lit newline ].

(** ** Segmenter *)

Abbreviation para_row := (str * str * Z)%type.

Record seg_state := SegState {
  current_section : str;
  per_section_index : gmap str Z;
  rows : list para_row
}.

(** The body of the loop over the blocks. *)
Definition segment_block (st : seg_state) (b : str) : seg_state :=
  let block := strip b in
  if negb (truthy block) then st
  else
    match re_match HEADING_RE block with
    | Some m =>
        let section_name := strip (group m 2) in
        SegState (if truthy section_name then section_name else current_section st)
                 (per_section_index st) (rows st)
    | None =>
        let idx := default 0 (per_section_index st !! current_section st) in
        SegState (current_section st)
                 (<[current_section st := idx + 1]> (per_section_index st))
                 (rows st ++ [(current_section st, block, idx)])
    end.

Definition seg_init : seg_state := SegState (py "Lead") ∅ [].

Definition split_into_section_paragraphs (extract_text : str) : list para_row :=
  if negb (truthy extract_text) then []
  else
    let blocks := re_split BLANK_RE (strip extract_text) in
    rows (fold_left segment_block blocks seg_init).

(** ** Identifier generator *)

(** [bytes(name, "utf-8")], one byte per list element. *)
Definition utf8_char (c : char) : list Z :=
  let n := Z.of_N (ord c) in
  if n <? 0x80 then [n]
  else if n <? 0x800 then
    [Z.lor 0xC0 (Z.shiftr n 6); Z.lor 0x80 (Z.land n 0x3F)]
  else if n <? 0x10000 then
    [Z.lor 0xE0 (Z.shiftr n 12); Z.lor 0x80 (Z.land (Z.shiftr n 6) 0x3F);
     Z.lor 0x80 (Z.land n 0x3F)]
  else
    [Z.lor 0xF0 (Z.shiftr n 18); Z.lor 0x80 (Z.land (Z.shiftr n 12) 0x3F);
     Z.lor 0x80 (Z.land (Z.shiftr n 6) 0x3F); Z.lor 0x80 (Z.land n 0x3F)].

Definition utf8 (s : str) : list Z := concat (utf8_char <$> s).

Fixpoint be_bytes (n : nat) (x : Z) : list Z :=
  match n with
  | O => []
  | S k => Z.land (Z.shiftr x (8 * Z.of_nat k)) 0xFF :: be_bytes k x
  end.

Definition be_int (bs : list Z) : Z :=
  fold_left (fun acc b => Z.lor (Z.shiftl acc 8) b) bs 0.

(** [hashlib.sha1]: SHA-1 on 32-bit words held in [Z]. *)
Definition w32 (x : Z) : Z := Z.land x 0xFFFFFFFF.

Definition rotl (n x : Z) : Z :=
  w32 (Z.lor (Z.shiftl x n) (Z.shiftr x (32 - n))).

Definition sha1_pad (msg : list Z) : list Z :=
  let l := Z.of_nat (length msg) in
  msg ++ [0x80] ++ replicate (Z.to_nat ((55 - l) mod 64)) 0 ++ be_bytes 8 (8 * l).

Fixpoint sha1_schedule (n : nat) (w : list Z) : list Z :=
  match n with
  | O => w
  | S k =>
      let x i := nth (length w - i) w 0 in
      sha1_schedule k
        (w ++ [rotl 1 (Z.lxor (Z.lxor (Z.lxor (x 3%nat) (x 8%nat)) (x 14%nat)) (x 16%nat))])
  end.

Abbreviation sha1_state := (Z * Z * Z * Z * Z)%type.

Definition sha1_round (st : sha1_state) (tw : nat * Z) : sha1_state :=
  let '(a, b, c, d, e) := st in
  let '(t, w) := tw in
  let '(f, k) :=
    if (t <? 20)%nat then
      (Z.lor (Z.land b c) (Z.land (Z.lxor b 0xFFFFFFFF) d), 0x5A827999)
    else if (t <? 40)%nat then
      (Z.lxor (Z.lxor b c) d, 0x6ED9EBA1)
    else if (t <? 60)%nat then
      (Z.lor (Z.lor (Z.land b c) (Z.land b d)) (Z.land c d), 0x8F1BBCDC)
    else
      (Z.lxor (Z.lxor b c) d, 0xCA62C1D6) in
  (w32 (rotl 5 a + f + e + k + w), a, rotl 30 b, c, d).

Definition sha1_block (h : sha1_state) (block : list Z) : sha1_state :=
  let w16 := (fun i => be_int (take 4 (drop (4 * i) block))) <$> seq 0 16 in
  let w := sha1_schedule 64 w16 in
  let '(a, b, c, d, e) := fold_left sha1_round (zip (seq 0 80) w) h in
  let '(h0, h1, h2, h3, h4) := h in
  (w32 (h0 + a), w32 (h1 + b), w32 (h2 + c), w32 (h3 + d), w32 (h4 + e)).

Fixpoint sha1_blocks (n : nat) (h : sha1_state) (msg : list Z) : sha1_state :=
  match n with
  | O => h
  | S k => sha1_blocks k (sha1_block h (take 64 msg)) (drop 64 msg)
  end.

Definition sha1 (msg : list Z) : list Z :=
  let padded := sha1_pad msg in
  let '(h0, h1, h2, h3, h4) :=
    sha1_blocks (length padded / 64)
      (0x67452301, 0xEFCDAB89, 0x98BADCFE, 0x10325476, 0xC3D2E1F0) padded in
  be_bytes 4 h0 ++ be_bytes 4 h1 ++ be_bytes 4 h2 ++ be_bytes 4 h3 ++ be_bytes 4 h4.

(** [uuid.NAMESPACE_URL.bytes] *)
Definition NAMESPACE_URL : list Z := be_bytes 16 0x6ba7b8119dad11d180b400c04fd430c8.

(** The 128-bit value of [uuid.uuid5(namespace, name)]: the first 16 bytes
    of the hash with the variant and the version set as
    [UUID(bytes=hash[:16], version=5)] does. *)
Definition uuid5 (namespace : list Z) (name : str) : Z :=
  let hash := sha1 (namespace ++ utf8 name) in
  let int := be_int (take 16 hash) in
  let int := Z.land int (Z.lnot (Z.shiftl 0xc000 48)) in
  let int := Z.lor int (Z.shiftl 0x8000 48) in
  let int := Z.land int (Z.lnot (Z.shiftl 0xf000 64)) in
  Z.lor int (Z.shiftl 5 76).

Definition hex_digit (d : Z) : char :=
  chr (nth (Z.to_nat d) (list_ascii_of_string "0123456789abcdef") "0"%char).

(** ['%032x' % int] *)
Definition hex32 (int : Z) : str :=
  (fun i => hex_digit (Z.land (Z.shiftr int (4 * Z.of_nat i)) 0xF)) <$> rev (seq 0 32).

(** [str(u)] for a [UUID] *)
Definition str_of_uuid (int : Z) : str :=
  let hex := hex32 int in
  take 8 hex ++ py "-" ++ take 4 (drop 8 hex) ++ py "-" ++ take 4 (drop 12 hex)
  ++ py "-" ++ take 4 (drop 16 hex) ++ py "-" ++ drop 20 hex.

Definition make_paragraph_id (title section : str) (paragraph_index : Z) (text : str)
  : str :=
  let base := title ++ py "||" ++ section ++ py "||" ++ str_of_int paragraph_index
              ++ py "||" ++ take 120 text in
  str_of_uuid (uuid5 NAMESPACE_URL base).

(** ** Dedup ledger and output table

    The output file is its text, [None] when the path does not exist.  The
    program opens it with an empty [newline], so no character is translated on
    the way in or out.  [csv.writer] and [csv.reader] are the ones of the
    [excel] dialect, the default: the delimiter is the comma, a field that
    holds a delimiter, a quote character or a line break is written between
    quote characters with its quote characters doubled, the line terminator
    is a carriage return and a newline, there is no escape character and
    the reader is not strict. *)

Definition delimiter : char := chr ",".
Definition quotechar : char := chr "034".
Definition lineterminator : str := [carriage_return; newline].

(** *** The writer *)

(** A character that makes [csv.writer] quote the field it occurs in. *)
Definition is_special (c : char) : bool :=
  char_eqb c delimiter || char_eqb c quotechar
  || char_eqb c carriage_return || char_eqb c newline.

(** The characters of a quoted field: every quote character is doubled. *)
Fixpoint double_quotes (field : str) : str :=
  match field with
  | [] => []
  | c :: field' =>
      if char_eqb c quotechar then quotechar :: quotechar :: double_quotes field'
      else c :: double_quotes field'
  end.

(** One field as [csv.writer] lays it out. *)
Definition join_append (field : str) : str :=
  if existsb is_special field
  then quotechar :: double_quotes field ++ [quotechar]
  else field.

(** [csv.writer.writerow]: the fields joined by the delimiter; a record
    that would come out empty although the row has a field (the row of one
    empty field) is written as two quote characters; then the line
    terminator. *)
Definition writerow (row : list str) : str :=
  let rec := join [delimiter] (join_append <$> row) in
  match row, rec with
  | _ :: _, [] => [quotechar; quotechar]
  | _, _ => rec
  end ++ lineterminator.

(** The text [csv.writer] produces for a list of records. *)
Definition csv_text (records : list (list str)) : str :=
  concat (writerow <$> records).

(** *** The reader *)

Abbreviation csv_file := (list (list str)).

Inductive ParserState :=
| START_RECORD
| START_FIELD
| IN_FIELD
| IN_QUOTED_FIELD
| QUOTE_IN_QUOTED_FIELD
| EAT_CRNL.

(** The parser of [csv.reader]: its state, the fields of the record under
    way and the characters of the field under way. *)
Record ReaderObj := Reader {
  state : ParserState;
  fields : list str;
  field : str
}.

Definition parse_reset : ReaderObj := Reader START_RECORD [] [].

(** [csv.field_size_limit()] *)
Definition field_limit : Z := 131072.

(** [parse_add_char]: [None] stands for
    [_csv.Error: field larger than field limit]. *)
Definition parse_add_char (self : ReaderObj) (c : char) : option ReaderObj :=
  if field_limit <=? Z.of_nat (length (field self)) then None
  else Some (Reader (state self) (fields self) (field self ++ [c])).

Definition parse_save_field (self : ReaderObj) : ReaderObj :=
  Reader (state self) (fields self ++ [field self]) [].

Definition set_state (s : ParserState) (self : ReaderObj) : ReaderObj :=
  Reader s (fields self) (field self).

Definition is_line_break (c : option char) : bool :=
  match c with
  | Some c => char_eqb c newline || char_eqb c carriage_return
  | None => false
  end.

(** [parse_process_char]: one step of the parser on a character, or on the
    end of a line ([None]).  The states that an escape character leads to
    are left out: the dialect has none. *)
Definition parse_process_char (self : ReaderObj) (c : option char) : option ReaderObj :=
  let start_field (self : ReaderObj) :=
    match c with
    | None => Some (set_state START_RECORD (parse_save_field self))
    | Some ch =>
        if is_line_break c then Some (set_state EAT_CRNL (parse_save_field self))
        else if char_eqb ch quotechar then Some (set_state IN_QUOTED_FIELD self)
        else if char_eqb ch delimiter then Some (parse_save_field self)
        else parse_add_char (set_state IN_FIELD self) ch
    end in
  match state self with
  | START_RECORD =>
      match c with
      | None => Some self
      | Some _ =>
          if is_line_break c then Some (set_state EAT_CRNL self)
          else start_field (set_state START_FIELD self)
      end
  | START_FIELD => start_field self
  | IN_FIELD =>
      match c with
      | None => Some (set_state START_RECORD (parse_save_field self))
      | Some ch =>
          if is_line_break c then Some (set_state EAT_CRNL (parse_save_field self))
          else if char_eqb ch delimiter
          then Some (set_state START_FIELD (parse_save_field self))
          else parse_add_char self ch
      end
  | IN_QUOTED_FIELD =>
      match c with
      | None => Some self
      | Some ch =>
          if char_eqb ch quotechar then Some (set_state QUOTE_IN_QUOTED_FIELD self)
          else parse_add_char self ch
      end
  | QUOTE_IN_QUOTED_FIELD =>
      match c with
      | None => Some (set_state START_RECORD (parse_save_field self))
      | Some ch =>
          if char_eqb ch quotechar
          then parse_add_char (set_state IN_QUOTED_FIELD self) ch
          else if char_eqb ch delimiter
          then Some (set_state START_FIELD (parse_save_field self))
          else if is_line_break c
          then Some (set_state EAT_CRNL (parse_save_field self))
          else parse_add_char (set_state IN_FIELD self) ch
      end
  | EAT_CRNL =>
      match c with
      | None => Some (set_state START_RECORD self)
      | Some _ => if is_line_break c then Some self else None
      end
  end.

(** A line of the file ends after [c] when [rest] follows it: at a newline,
    at a carriage return that no newline follows, and at the end of the
    file.  These are the lines a file opened with an empty [newline] hands to the
    reader. *)
Definition line_ends (c : char) (rest : str) : bool :=
  match rest with
  | [] => true
  | d :: _ =>
      char_eqb c newline || (char_eqb c carriage_return && negb (char_eqb d newline))
  end.

(** The loop of [csv.reader] over the text: every character goes through
    the parser, then the end of the line where a line ends; a record is
    complete when a line ends with the parser in [START_RECORD], and the
    parser starts afresh.  The result is the records completed and the
    parser as the end of the text leaves it. *)
Fixpoint reader_scan (self : ReaderObj) (text : str)
  : option (list (list str) * ReaderObj) :=
  match text with
  | [] => Some ([], self)
  | c :: rest =>
      match parse_process_char self (Some c) with
      | None => None
      | Some self =>
          if line_ends c rest then
            match parse_process_char self None with
            | None => None
            | Some self =>
                match state self with
                | START_RECORD =>
                    prod_map (cons (fields self)) id <$> reader_scan parse_reset rest
                | _ => reader_scan self rest
                end
            end
          else reader_scan self rest
      end
  end.

(** What the reader does when the lines run out: a record cut short inside
    a quoted field, or with characters in its last field, is handed out as
    it stands. *)
Definition at_end_of_input (self : ReaderObj) : list (list str) :=
  match state self, field self with
  | IN_QUOTED_FIELD, _ | _, _ :: _ => [fields (parse_save_field self)]
  | _, [] => []
  end.

(** [list(csv.reader(f))] for a file of text [text]; [None] when the reader
    raises [_csv.Error]. *)
Definition csv_reader (text : str) : option csv_file :=
  match reader_scan parse_reset text with
  | None => None
  | Some (records, self) => Some (records ++ at_end_of_input self)
  end.

(** The file at a path as the reader sees it: the outer [None] when the
    reader raises, [Some None] when the path does not exist. *)
Definition read_csv (file : option str) : option (option csv_file) :=
  match file with
  | None => Some None
  | Some text => Some <$> csv_reader text
  end.

(** One step of [csv.DictReader]: [dict(zip(fieldnames, row))], then the
    fields a short row leaves out are set to [restval], which is [None].
    The surplus of a long row is stored under the key [None] and is not
    kept here: no lookup by a string key can reach it. *)
Definition dict_row (fieldnames row : list str) : gmap str (option str) :=
  let d := fold_left (fun d kv => <[kv.1 := Some kv.2]> d) (zip fieldnames row) ∅ in
  fold_left (fun d key => <[key := None]> d) (drop (length row) fieldnames) d.

(** The rows [csv.DictReader] yields: the first record gives the field
    names, empty records are passed over. *)
Definition dict_reader (f : csv_file) : list (gmap str (option str)) :=
  match f with
  | [] => []
  | fieldnames :: data =>
      dict_row fieldnames <$> filter (fun row : list str => row ≠ []) data
  end.

(** The body of the loop of [load_existing_ids]: [row.get("id")] is falsy
    when the key is missing, when its value is [None] and when it is the
    empty string. *)
Definition load_row (existing : gset str) (row : gmap str (option str)) : gset str :=
  match row !! py "id" with
  | Some (Some v) => if truthy v then {[v]} ∪ existing else existing
  | _ => existing
  end.

(** [load_existing_ids], from the records the reader hands over on;
    [None] when the path does not exist. *)
Definition load_existing_ids (csv_path : option csv_file) : gset str :=
  match csv_path with
  | None => ∅
  | Some f =>
      fold_left load_row (dict_reader f) ∅
  end.

(** *** Writing dictionaries *)

(** The cells of a row in the order of the field names, [restval] (the
    empty string) for a missing key. *)
Definition row_cells (fieldnames : list str) (rowdict : gmap str str) : list str :=
  (fun key => default [] (rowdict !! key)) <$> fieldnames.

(** [csv.DictWriter._dict_to_list]: [None] stands for the [ValueError]
    raised when the dictionary has a key that is not a field name
    ([extrasaction] is ["raise"]). *)
Definition dict_to_list (fieldnames : list str) (rowdict : gmap str str)
  : option (list str) :=
  if bool_decide (map_Forall (fun key _ => key ∈ fieldnames) rowdict)
  then Some (row_cells fieldnames rowdict)
  else None.

(** [csv.DictWriter.writerow] on a file of text [f]: the text after the
    call, [None] when it raises. *)
Definition DictWriter_writerow (fieldnames : list str) (f : str)
    (rowdict : gmap str str) : option str :=
  match dict_to_list fieldnames rowdict with
  | Some cells => Some (f ++ writerow cells)
  | None => None
  end.

(** [csv.DictWriter.writeheader] *)
Definition writeheader (fieldnames : list str) (f : str) : option str :=
  let header := fold_left (fun d kv => <[kv.1 := kv.2]> d) (zip fieldnames fieldnames) ∅ in
  DictWriter_writerow fieldnames f header.

(** The loop of [append_rows]: the text of the file and the count [n] when
    the loop ends, [None] for the count when a row raises; the rows before
    it are in the file by then. *)
Fixpoint write_rows (fieldnames : list str) (f : str) (rows : list (gmap str str))
    (n : nat) : str * option nat :=
  match rows with
  | [] => (f, Some n)
  | r :: rows' =>
      match DictWriter_writerow fieldnames f r with
      | Some f' => write_rows fieldnames f' rows' (S n)
      | None => (f, None)
      end
  end.

(** [append_rows]: the file after the call, and the number of rows written
    or [None] when the call raises [ValueError].  Mode ["a"] creates a
    missing file and puts every character after those the file holds. *)
Definition append_rows (out_csv : option str) (rows : list (gmap str str))
    (fieldnames : list str) : option str * option nat :=
  let file_exists := bool_decide (is_Some out_csv) in
  let f := default [] out_csv in
  match (if file_exists then Some f else writeheader fieldnames f) with
  | Some f =>
      let '(f, n) := write_rows fieldnames f rows 0 in
      (Some f, n)
  | None => (Some f, None)
  end.

(** ** Pipeline driver *)

Definition fieldnames : list str :=
  [py "id"; py "title"; py "url"; py "section"; py "paragraph_index"; py "text"].

Record args := Args {
  min_chars : Z;
  max_paragraphs_per_article : Z
}.

Definition make_row (pid title section : str) (para_idx : Z) (para : str)
  : gmap str str :=
  <[py "text" := strip (replace_char newline (chr " ") para)]>
  (<[py "paragraph_index" := str_of_int para_idx]>
  (<[py "section" := section]>
  (<[py "url" := py "https://en.wikipedia.org/wiki/"
                 ++ replace_char (chr " ") (chr "_") title]>
  (<[py "title" := title]>
  (<[py "id" := pid]> ∅))))).

(** The loop over the paragraphs of one article; the result is [kept], the
    ledger and [all_new_rows] when the loop ends or breaks. *)
Fixpoint keep_loop (a : args) (title : str) (sec_paras : list para_row)
    (kept : nat) (existing_ids : gset str) (all_new_rows : list (gmap str str))
  : nat * gset str * list (gmap str str) :=
  match sec_paras with
  | [] => (kept, existing_ids, all_new_rows)
  | (section, para, para_idx) :: rest =>
      if Z.of_nat kept >=? max_paragraphs_per_article a then
        (kept, existing_ids, all_new_rows)
      else if Z.of_nat (length para) <? min_chars a then
        keep_loop a title rest kept existing_ids all_new_rows
      else
        let pid := make_paragraph_id title section para_idx para in
        if bool_decide (pid ∈ existing_ids) then
          keep_loop a title rest kept existing_ids all_new_rows
        else
          keep_loop a title rest (S kept) ({[pid]} ∪ existing_ids)
            (all_new_rows ++ [make_row pid title section para_idx para])
  end.

(** An exception that nothing in [main] catches. *)
Inductive exception := csv_Error | ValueError.

(** What [main] holds between two titles; [stdout] collects the title and
    the count of every ["[OK] '<title>': added <n> paragraphs"] line;
    [out_csv] is the output file as it stands on disk; [raised] is the
    exception that ended the run, if one did. *)
Record run_state := RunState {
  existing_ids : gset str;
  all_new_rows : list (gmap str str);
  total_added : nat;
  out_csv : option str;
  stdout : list (str * nat);
  raised : option exception
}.

(** The body of the loop over the titles.  [fetch title] is what
    [fetch_plaintext_extract(title)] returns, [None] when it raises. *)
Definition main_title (a : args) (fetch : str → option str)
    (st : run_state) (title : str) : run_state :=
  match fetch title with
  | None => st
  | Some extract =>
      if negb (truthy extract) then st
      else
        let sec_paras := split_into_section_paragraphs extract in
        let '(kept, ids, new_rows) :=
          keep_loop a title sec_paras 0 (existing_ids st) (all_new_rows st) in
        match append_rows (out_csv st) (drop (total_added st) new_rows) fieldnames with
        | (file, Some added) =>
            RunState ids new_rows (total_added st + added) file
                     (stdout st ++ [(title, added)]) None
        | (file, None) =>
            RunState ids new_rows (total_added st) file (stdout st) (Some ValueError)
        end
  end.

(** The loop over the titles; an exception ends it. *)
Fixpoint main_for (a : args) (fetch : str → option str) (titles : list str)
    (st : run_state) : run_state :=
  match titles with
  | [] => st
  | title :: titles' =>
      let st' := main_title a fetch st title in
      match raised st' with
      | Some _ => st'
      | None => main_for a fetch titles' st'
      end
  end.

(** [main] from [existing_ids = load_existing_ids(out_csv)] on: the ledger
    is read from the output file, which ends the run when the reader
    raises, and the loop over the titles is entered. *)
Definition main_loop (a : args) (fetch : str → option str) (titles : list str)
    (file : option str) : run_state :=
  match read_csv file with
  | None => RunState ∅ [] 0 file [] (Some csv_Error)
  | Some csv_path =>
      main_for a fetch titles (RunState (load_existing_ids csv_path) [] 0 file [] None)
  end.

(** [main] from the point where the titles are known: [None] stands for
    [sys.exit(1)], taken when there is no title.  A run that an exception
    ended comes out as the state it had then, with [raised] set. *)
Definition main (a : args) (fetch : str → option str) (titles : list str)
    (file : option str) : option run_state :=
  if bool_decide (titles = []) then None
  else Some (main_loop a fetch titles file).

(** ** Vocabulary of the statements *)

Definition nl : string := String "010" EmptyString.

Definition section_of (r : para_row) : str := r.1.1.
Definition text_of (r : para_row) : str := r.1.2.
Definition index_of (r : para_row) : Z := r.2.

(** The local indices given to the paragraphs of section [s], in the order
    the segmenter emits them. *)
Definition indices_in (s : str) (rs : list para_row) : list Z :=
  index_of <$> filter (fun r => section_of r = s) rs.

(** A row of the table carries the [id] value [v]: the [id] cell is there
    and is not empty. *)
Definition has_id (row : gmap str (option str)) (v : str) : Prop :=
  row !! py "id" = Some (Some v) ∧ v ≠ [].

(** The invariant of the loop over the blocks: for every section name the
    indices handed out so far count up from 0, and the dictionary holds the
    next one. *)
Definition seg_inv (st : seg_state) : Prop :=
  ∀ s, indices_in s (rows st) = Z.of_nat <$> seq 0 (length (indices_in s (rows st)))
       ∧ default 0 (per_section_index st !! s) = Z.of_nat (length (indices_in s (rows st))).

(** The paragraphs of an article that pass the length filter. *)
Definition qualifying (a : args) (ps : list para_row) : list para_row :=
  filter (fun r => min_chars a ≤ Z.of_nat (length (text_of r))) ps.

(** The identifiers of the paragraphs that pass the length filter. *)
Definition ids_of (a : args) (title : str) (ps : list para_row) : list str :=
  (fun r => make_paragraph_id title (section_of r) (index_of r) (text_of r))
    <$> qualifying a ps.

(** The rows the driver would accept for an article if no cap stopped it:
    in segmentation order, every paragraph that passes the length filter
    and whose identifier the ledger does not hold yet. *)
Fixpoint keep_all (a : args) (title : str) (ps : list para_row)
    (ledger : gset str) : list (gmap str str) :=
  match ps with
  | [] => []
  | (section, para, para_idx) :: rest =>
      if Z.of_nat (length para) <? min_chars a then keep_all a title rest ledger
      else
        let pid := make_paragraph_id title section para_idx para in
        if bool_decide (pid ∈ ledger) then keep_all a title rest ledger
        else make_row pid title section para_idx para
             :: keep_all a title rest ({[pid]} ∪ ledger)
  end.

Definition row_id (r : gmap str str) : str := default [] (r !! py "id").

(** A row as the driver builds it. *)
Definition made_row (r : gmap str str) : Prop :=
  ∃ title section para_idx para,
    r = make_row (make_paragraph_id title section para_idx para)
                 title section para_idx para.

(** Every cell of the record is within the field size limit of the
    reader. *)
Definition fits (record : list str) : Prop :=
  Forall (fun cell => Z.of_nat (length cell) ≤ field_limit) record.

#[global] Instance fits_dec (record : list str) : Decision (fits record).
Proof. unfold fits. apply _. Defined.

(** The parser has read a whole field, with characters [g], and the next
    character decides what becomes of it. *)
Definition field_read (s : ParserState) (g : str) : Prop :=
  s = IN_FIELD ∨ (s = START_FIELD ∧ g = []) ∨ s = QUOTE_IN_QUOTED_FIELD.

(** The text ends with a line break. *)
Definition ends_with_line_break (text : str) : bool :=
  match last text with
  | Some c => is_line_break (Some c)
  | None => false
  end.

(** The text is made of the complete records [records]: it ends with a
    line break, and the reader, which accepts it, has no record under way
    at its end. *)
Definition holds_records (text : str) (records : csv_file) : Prop :=
  ends_with_line_break text = true
  ∧ reader_scan parse_reset text = Some (records, parse_reset).

(** The header has an [id] column, the first one, and no other. *)
Definition id_first (header : list str) : Prop :=
  ∃ rest, header = py "id" :: rest ∧ py "id" ∉ rest.

(** An output table a run can extend: absent, or a text of complete
    records whose header has [id] as its first column and only there. *)
Definition table_ok (file : option str) : Prop :=
  file = None
  ∨ ∃ text header data,
      file = Some text ∧ holds_records text (header :: data) ∧ id_first header.

(** The text a call of [append_rows] starts from: the text of the file, or
    the header line when the file is missing. *)
Definition base_text (fieldnames : list str) (file : option str) : str :=
  match file with
  | Some text => text
  | None => writerow fieldnames
  end.

(** The article of [title] has text. *)
Definition has_text (fetch : str → option str) (title : str) : Prop :=
  ∃ extract, fetch title = Some extract ∧ truthy extract = true.

(** The ledger holds the identifier of every paragraph of the articles of
    [titles] that passes the length filter. *)
Definition nothing_left (a : args) (fetch : str → option str) (titles : list str)
    (ledger : gset str) : Prop :=
  ∀ title extract x,
    title ∈ titles → fetch title = Some extract →
    x ∈ ids_of a title (split_into_section_paragraphs extract) → x ∈ ledger.

(** The cap does not cut the article of [title] short: no more paragraphs
    pass the length filter than the cap lets through. *)
Definition within_cap (a : args) (fetch : str → option str) (title : str) : Prop :=
  ∀ extract, fetch title = Some extract →
    Z.of_nat (length (qualifying a (split_into_section_paragraphs extract)))
    ≤ max_paragraphs_per_article a.

(** The rows of [rows] that belong to the article of [title]. *)
Definition rows_of_article (title : str) (rows : list (gmap str str))
  : list (gmap str str) :=
  filter (fun r => r !! py "title" = Some title) rows.

(** A world in which every title has the same article of three short
    paragraphs, and two runs over it with a cap of one paragraph. *)
Definition three_paragraphs (title : str) : option str :=
  Some (py ("aaaa" ++ nl ++ nl ++ "bbbb" ++ nl ++ nl ++ "cccc")).

Definition capped_first_run : run_state :=
  main_loop (Args 1 1) three_paragraphs [py "T"] None.

Definition capped_second_run : run_state :=
  main_loop (Args 1 1) three_paragraphs [py "T"] (out_csv capped_first_run).

(** ** Titles *)

(** The line boundaries of [str.splitlines]. *)
Definition is_linebreak (c : char) : bool :=
  let n := ord c in
  (((0x0A <=? n) && (n <=? 0x0D)) || ((0x1C <=? n) && (n <=? 0x1E))
   || (n =? 0x85) || (n =? 0x2028) || (n =? 0x2029))%N.

(** [s.splitlines()]: a line ends at every boundary, a carriage return
    followed by a newline is one boundary, and no empty line is added after
    the last boundary. [line] holds, reversed, the characters of the current
    line. *)
Fixpoint splitlines_scan (line s : str) : list str :=
  match s with
  | [] => if truthy line then [rev line] else []
  | c :: s' =>
      if is_linebreak c then
        match s' with
        | d :: s'' =>
            if char_eqb c carriage_return && char_eqb d newline
            then rev line :: splitlines_scan [] s''
            else rev line :: splitlines_scan [] s'
        | [] => rev line :: splitlines_scan [] s'
        end
      else splitlines_scan (c :: line) s'
  end.

Definition splitlines (s : str) : list str := splitlines_scan [] s.

(** [read_titles_from_file] from the text of the file on: the lines are
    trimmed, and the empty ones and those that start with [#] are passed
    over. *)
Definition read_titles_from_file (text : str) : list str :=
  filter (fun t => truthy t = true ∧ starts_with (py "#") t = false)
         (strip <$> splitlines text).

(** [s.split(sep)] for a one-character separator. *)
Fixpoint split_char_scan (sep : char) (piece s : str) : list str :=
  match s with
  | [] => [rev piece]
  | c :: s' =>
      if char_eqb c sep then rev piece :: split_char_scan sep [] s'
      else split_char_scan sep (c :: piece) s'
  end.

Definition split_char (sep : char) (s : str) : list str := split_char_scan sep [] s.

(** The titles [main] takes from [--titles]:
    [[t.strip() for t in args.titles.split("|") if t.strip()]], nothing when
    the option is empty. *)
Definition titles_from_arg (titles : str) : list str :=
  if truthy titles
  then strip <$> filter (fun t => truthy (strip t) = true) (split_char (chr "|") titles)
  else [].

(** The titles of a run: those of the titles file first ([None] when
    [--titles-file] is not given, else the text of the file), then those of
    [--titles]. *)
Definition gather_titles (titles_file : option str) (titles : str) : list str :=
  match titles_file with
  | Some text => read_titles_from_file text
  | None => []
  end ++ titles_from_arg titles.

(** ** Vocabulary of the further properties *)

(** A paragraph row as a reader of the segmenter's output finds it: a text
    that is not empty, is trimmed and is not a heading, under a section
    name that is not empty and is trimmed. *)
Definition well_formed_row (r : para_row) : Prop :=
  text_of r ≠ [] ∧ strip (text_of r) = text_of r
  ∧ re_match HEADING_RE (text_of r) = None
  ∧ section_of r ≠ [] ∧ strip (section_of r) = section_of r.

(** What the loop over the blocks keeps besides [seg_inv]. *)
Definition seg_wf (st : seg_state) : Prop :=
  current_section st ≠ [] ∧ strip (current_section st) = current_section st
  ∧ Forall well_formed_row (rows st).

(** The pair that names a paragraph inside its article. *)
Definition row_key (r : para_row) : str * Z := (section_of r, index_of r).

(** [s] opens with a separator of blocks: a newline, white space, a
    newline. *)
Definition blank_line_at (s : str) : Prop :=
  ∃ w t, s = newline :: w ++ newline :: t ∧ Forall (fun c => is_space c = true) w.

(** A separator of blocks occurs somewhere in [s]. *)
Definition has_blank_line (s : str) : Prop := ∃ i, blank_line_at (drop i s).

(** A lower-case hexadecimal digit. *)
Definition is_hex_digit (c : char) : bool :=
  let n := ord c in
  (((0x30 <=? n) && (n <=? 0x39)) || ((0x61 <=? n) && (n <=? 0x66)))%N.

(** The row [r] was built from a paragraph of a fetched article of one of
    the [titles], and the paragraph passes the length filter. *)
Definition from_article (a : args) (fetch : str → option str) (titles : list str)
    (r : gmap str str) : Prop :=
  ∃ title extract section para para_idx,
    title ∈ titles ∧ fetch title = Some extract
    ∧ (section, para, para_idx) ∈ split_into_section_paragraphs extract
    ∧ min_chars a ≤ Z.of_nat (length para)
    ∧ r = make_row (make_paragraph_id title section para_idx para)
                   title section para_idx para.

(** A title as the driver wants it: not empty and with no white space at
    either end. *)
Definition clean_title (t : str) : Prop := t ≠ [] ∧ strip t = t.

(** * Properties *)

(** ** Segmenter *)

Section segmenter.

Lemma indices_in_app s rs1 rs2 :
  indices_in s (rs1 ++ rs2) = indices_in s rs1 ++ indices_in s rs2.
Proof. unfold indices_in. by rewrite filter_app, fmap_app. Qed.

Lemma indices_in_single s r :
  indices_in s [r] = if decide (section_of r = s) then [index_of r] else [].
Proof.
  unfold indices_in. rewrite filter_cons, filter_nil. by case_decide.
Qed.

Lemma seg_inv_init : seg_inv seg_init.
Proof. intros s. split; [done|]. cbn. by rewrite lookup_empty. Qed.

Lemma seg_inv_step st b : seg_inv st → seg_inv (segment_block st b).
Proof.
  intros Hinv. unfold segment_block.
  destruct (negb (truthy (strip b))); [done|].
  destruct (re_match HEADING_RE (strip b)) as [m|]; [exact Hinv|].
  intros s. cbn [rows per_section_index].
  destruct (Hinv s) as [Hseq Hnext].
  rewrite indices_in_app, length_app.
  destruct (decide (current_section st = s)) as [->|Hne].
  - rewrite lookup_insert_eq. cbn [default from_option id].
    rewrite indices_in_single, decide_True by done.
    cbn [length index_of snd]. split.
    + rewrite Nat.add_1_r, seq_S, fmap_app. cbn.
      by rewrite <- Hseq, Hnext.
    + rewrite Hnext. lia.
  - rewrite lookup_insert_ne by done.
    rewrite indices_in_single, decide_False by done.
    rewrite app_nil_r, Nat.add_0_r. done.
Qed.

Lemma seg_inv_fold blocks st :
  seg_inv st → seg_inv (fold_left segment_block blocks st).
Proof.
  revert st. induction blocks as [|b blocks IH]; intros st Hinv; [done|].
  cbn. apply IH. by apply seg_inv_step.
Qed.

End segmenter.

(** C4. For every input text and every section name [s], the local indices
    the segmenter gives to the paragraphs of [s] are, in emission order,
    0, 1, 2, ...: the sequence is keyed by the name alone, so it resumes
    when [s] comes back after another section. *)
Theorem local_index_sequence (extract_text s : str) :
  indices_in s (split_into_section_paragraphs extract_text)
  = Z.of_nat <$> seq 0 (length (indices_in s (split_into_section_paragraphs extract_text))).
Proof.
  unfold split_into_section_paragraphs.
  destruct (negb (truthy extract_text)); [done|].
  apply seg_inv_fold, seg_inv_init.
Qed.

(** A section name that comes back: the counter of ["A"] goes on at 1. *)
Example section_resume_example :
  split_into_section_paragraphs
    (py ("== A ==" ++ nl ++ nl ++ "p1" ++ nl ++ nl ++ "== B ==" ++ nl ++ nl ++ "p2"
         ++ nl ++ nl ++ "== A ==" ++ nl ++ nl ++ "p3"))
  = [ (py "A", py "p1", 0); (py "B", py "p2", 0); (py "A", py "p3", 1) ].
Proof. vm_compute. reflexivity. Qed.

(** C5. The worked example of the section restart. *)
Theorem section_restart_example :
  split_into_section_paragraphs
    (py ("Para A" ++ nl ++ nl ++ "== Sec1 ==" ++ nl ++ nl ++ "Para B" ++ nl ++ nl
         ++ "Para C" ++ nl ++ nl ++ "== Sec2 ==" ++ nl ++ nl ++ "Para D"))
  = [ (py "Lead", py "Para A", 0); (py "Sec1", py "Para B", 0);
      (py "Sec1", py "Para C", 1); (py "Sec2", py "Para D", 0) ].
Proof. vm_compute. reflexivity. Qed.

(** ** The backtracking matcher *)

Section matcher.

Lemma char_eqb_eq c d : char_eqb c d = true ↔ c = d.
Proof.
  unfold char_eqb, ord. rewrite N.eqb_eq. split; [|by intros ->].
  intros Heq. by apply (sig_eq_pi _).
Qed.

Lemma char_eqb_refl c : char_eqb c c = true.
Proof. by apply char_eqb_eq. Qed.

Lemma is_eq_sign_eq c : is_eq_sign c = true ↔ c = chr "=".
Proof. apply char_eqb_eq. Qed.

Lemma space_not_eq_sign c : is_space c = true → is_eq_sign c = false.
Proof.
  intros Hs. destruct (is_eq_sign c) eqn:He; [|done].
  apply is_eq_sign_eq in He. subst c. vm_compute in Hs. discriminate.
Qed.

Lemma is_dot_false c : is_dot c = false ↔ c = newline.
Proof.
  unfold is_dot. rewrite negb_false_iff. apply char_eqb_eq.
Qed.

Lemma starts_with_spec w s :
  starts_with w s = true ↔ s = w ++ drop (length w) s.
Proof.
  revert s. induction w as [|a w IH]; intros s; cbn.
  - by rewrite drop_0.
  - destruct s as [|b s]; [done|]. cbn.
    rewrite andb_true_iff, char_eqb_eq, IH. split.
    + intros [-> Hs]. by rewrite <- Hs.
    + intros [= -> Hs]. done.
Qed.

Lemma at_end_spec s : at_end s = true ↔ s = [] ∨ s = [newline].
Proof.
  destruct s as [|c [|d s]]; cbn.
  - split; auto.
  - rewrite char_eqb_eq. split; [intros ->; by right|]. by intros [|[= ->]].
  - split; [done|]. by intros [|].
Qed.

Lemma first_some_Some {A B} (f : A → option B) l y :
  first_some f l = Some y → ∃ x, x ∈ l ∧ f x = Some y.
Proof.
  induction l as [|x l IH]; cbn; [done|].
  destruct (f x) as [y'|] eqn:Hfx.
  - intros [= ->]. exists x. split; [apply list_elem_of_here|done].
  - intros Hl. destruct (IH Hl) as (x' & Hin & Hx').
    exists x'. split; [by apply list_elem_of_further|done].
Qed.

Lemma first_some_skip {A B} (f : A → option B) l1 x l2 y :
  Forall (fun i => f i = None) l1 → f x = Some y →
  first_some f (l1 ++ x :: l2) = Some y.
Proof.
  intros Hnone Hx. induction Hnone as [|i l1 Hi _ IH]; cbn.
  - by rewrite Hx.
  - by rewrite Hi.
Qed.

Lemma elem_of_counts g lo hi n : n ∈ counts g lo hi → (lo ≤ n ≤ hi)%nat.
Proof.
  unfold counts. intros Hin.
  assert (Hseq : n ∈ seq lo (S hi - lo)).
  { destruct g; [|done]. by apply list_elem_of_In, in_rev, list_elem_of_In. }
  apply elem_of_seq in Hseq. lia.
Qed.

Lemma counts_greedy_top lo hi :
  (lo ≤ hi)%nat → counts true lo hi = hi :: rev (seq lo (hi - lo)).
Proof.
  intros Hle. unfold counts.
  replace (S hi - lo)%nat with (S (hi - lo)) by lia.
  rewrite seq_S, rev_app_distr. cbn. f_equal. lia.
Qed.

Lemma counts_lazy_split lo n hi :
  (lo ≤ n ≤ hi)%nat →
  counts false lo hi = seq lo (n - lo) ++ n :: seq (S n) (hi - n).
Proof.
  intros Hle. unfold counts.
  replace (S hi - lo)%nat with ((n - lo) + S (hi - n))%nat by lia.
  rewrite seq_app. replace (lo + (n - lo))%nat with n by lia. reflexivity.
Qed.

Lemma run_length_app cls w s :
  Forall (fun c => cls c = true) w →
  run_length cls (w ++ s) = (length w + run_length cls s)%nat.
Proof.
  induction 1 as [|c w Hc _ IH]; cbn; [done|]. by rewrite Hc, IH.
Qed.

Lemma run_length_le cls s : (run_length cls s ≤ length s)%nat.
Proof.
  induction s as [|c s IH]; cbn; [done|]. destruct (cls c); lia.
Qed.

Lemma run_length_take cls n s :
  (n ≤ run_length cls s)%nat → Forall (fun c => cls c = true) (take n s).
Proof.
  revert n. induction s as [|c s IH]; intros n Hn.
  - by rewrite take_nil.
  - destruct n as [|n]; [constructor|]. cbn in *.
    destruct (cls c) eqn:Hc; [|lia].
    constructor; [done|]. apply IH. lia.
Qed.

Lemma exec_rep_inv r g lo cls grp pos s gs y :
  exec (Rep g lo cls grp :: r) pos s gs = Some y →
  ∃ n, (lo ≤ n ≤ run_length cls s)%nat
       ∧ exec r (pos + n) (drop n s) (set_group grp (take n s) gs) = Some y.
Proof.
  cbn [exec]. intros Hex.
  apply first_some_Some in Hex as (n & Hin & Hn).
  exists n. split; [by eapply elem_of_counts|done].
Qed.

Lemma exec_rep_greedy_top r lo cls grp pos s gs y :
  (lo ≤ run_length cls s)%nat →
  exec r (pos + run_length cls s) (drop (run_length cls s) s)
       (set_group grp (take (run_length cls s) s) gs) = Some y →
  exec (Rep true lo cls grp :: r) pos s gs = Some y.
Proof.
  intros Hle Hex. cbn [exec]. rewrite counts_greedy_top by done.
  cbn [first_some]. by rewrite Hex.
Qed.

Lemma exec_rep_lazy r lo cls grp pos s gs n y :
  (lo ≤ n ≤ run_length cls s)%nat →
  (∀ i, (lo ≤ i < n)%nat →
        exec r (pos + i) (drop i s) (set_group grp (take i s) gs) = None) →
  exec r (pos + n) (drop n s) (set_group grp (take n s) gs) = Some y →
  exec (Rep false lo cls grp :: r) pos s gs = Some y.
Proof.
  intros Hle Hnone Hex. cbn [exec].
  rewrite (counts_lazy_split lo n) by done.
  apply first_some_skip; [|done].
  apply Forall_forall. intros i Hi. apply elem_of_seq in Hi.
  apply Hnone. lia.
Qed.

Lemma run_length_exact cls w s :
  Forall (fun c => cls c = true) w →
  (s = [] ∨ ∃ c s', s = c :: s' ∧ cls c = false) →
  run_length cls (w ++ s) = length w.
Proof.
  intros Hw Hs. rewrite run_length_app by done.
  destruct Hs as [->|(c & s' & -> & Hc)]; cbn; [lia|]. rewrite Hc. lia.
Qed.

Lemma exec_bol r s gs y :
  exec r 0 s gs = Some y → exec (Bol :: r) 0 s gs = Some y.
Proof. done. Qed.

Lemma exec_backref r g w pos s gs y :
  gs !! g = Some w →
  exec r (pos + length w) s gs = Some y →
  exec (Backref g :: r) pos (w ++ s) gs = Some y.
Proof.
  intros Hg Hex. cbn [exec]. rewrite Hg.
  assert (Hsw : starts_with w (w ++ s) = true).
  { apply starts_with_spec. by rewrite drop_app_length. }
  by rewrite Hsw, drop_app_length.
Qed.

Lemma exec_backref_inv r g pos s gs y :
  exec (Backref g :: r) pos s gs = Some y →
  ∃ w s', gs !! g = Some w ∧ s = w ++ s'
          ∧ exec r (pos + length w) s' gs = Some y.
Proof.
  cbn [exec]. destruct (gs !! g) as [w|]; [|done].
  destruct (starts_with w s) eqn:Hsw; [|done].
  intros Hex. apply starts_with_spec in Hsw. by exists w, (drop (length w) s).
Qed.

Lemma exec_eol_inv pos s gs y :
  exec [Eol] pos s gs = Some y → (s = [] ∨ s = [newline]) ∧ y = (pos, gs).
Proof.
  cbn [exec]. destruct (at_end s) eqn:Hend; [|done].
  intros [= <-]. split; [by apply at_end_spec|done].
Qed.

(** The end of the heading pattern, [\s*\1$], once group 1 is known. *)
Lemma tail_match pos ws mk gs :
  Forall (fun c => is_space c = true) ws →
  (∃ c mk', mk = c :: mk' ∧ is_space c = false) →
  gs !! 1%nat = Some mk →
  exec [Rep true 0 is_space None; Backref 1; Eol] pos (ws ++ mk) gs
  = Some ((pos + length ws + length mk)%nat, gs).
Proof.
  intros Hws Hmk Hg.
  assert (Hrun : run_length is_space (ws ++ mk) = length ws).
  { apply run_length_exact; [done|]. right. destruct Hmk as (c & mk' & -> & Hc).
    by exists c, mk'. }
  apply exec_rep_greedy_top; rewrite Hrun; [lia|].
  rewrite drop_app_length. cbn [set_group].
  rewrite <- (app_nil_r mk) at 1. by apply exec_backref.
Qed.

Lemma tail_inv pos s mk gs y :
  gs !! 1%nat = Some mk →
  exec [Rep true 0 is_space None; Backref 1; Eol] pos s gs = Some y →
  ∃ ws, Forall (fun c => is_space c = true) ws
        ∧ (s = ws ++ mk ∨ s = ws ++ mk ++ [newline]) ∧ y.2 = gs.
Proof.
  intros Hg Hex.
  apply exec_rep_inv in Hex as (n & Hn & Hex). cbn [set_group] in Hex.
  apply exec_backref_inv in Hex as (w & s' & Hw & Hs & Hex).
  rewrite Hg in Hw. injection Hw as <-.
  apply exec_eol_inv in Hex as [Hend ->].
  exists (take n s). split; [apply run_length_take; lia|]. split; [|done].
  rewrite <- (take_drop n s) at 1 3. rewrite Hs.
  destruct Hend as [->| ->]; [left|right]; by rewrite ?app_nil_r.
Qed.

Lemma exec_bol_inv r pos s gs y :
  exec (Bol :: r) pos s gs = Some y → pos = 0%nat ∧ exec r pos s gs = Some y.
Proof.
  cbn [exec]. destruct (Nat.eqb_spec pos 0); [done|discriminate].
Qed.

Lemma all_eq_sign l :
  Forall (fun c => is_eq_sign c = true) l → l = replicate (length l) (chr "=").
Proof.
  induction 1 as [|c l Hc _ IH]; cbn; [done|].
  apply is_eq_sign_eq in Hc. by rewrite Hc, <- IH.
Qed.

(** What a match of [HEADING_RE] says about the subject. *)
Lemma heading_inv s m :
  re_match HEADING_RE s = Some m →
  ∃ k ws1 name ws2,
    (1 ≤ k)%nat
    ∧ (s = replicate k (chr "=") ++ ws1 ++ name ++ ws2 ++ replicate k (chr "=")
       ∨ s = replicate k (chr "=") ++ ws1 ++ name ++ ws2
             ++ replicate k (chr "=") ++ [newline])
    ∧ Forall (fun c => is_space c = true) ws1
    ∧ Forall (fun c => is_space c = true) ws2
    ∧ Forall (fun c => is_dot c = true) name
    ∧ group m 1 = replicate k (chr "=") ∧ group m 2 = name.
Proof.
  unfold re_match, HEADING_RE. intros Hm.
  destruct (exec _ _ _ _) as [[e m']|] eqn:Hex; [|done].
  cbn in Hm. injection Hm as ->.
  apply exec_bol_inv in Hex as [_ Hex].
  apply exec_rep_inv in Hex as (n1 & Hn1 & Hex). cbn [set_group] in Hex.
  apply exec_rep_inv in Hex as (n2 & Hn2 & Hex). cbn [set_group] in Hex.
  apply exec_rep_inv in Hex as (n3 & Hn3 & Hex). cbn [set_group] in Hex.
  eapply tail_inv in Hex as (ws2 & Hws2 & Hs & Hm);
    [|by rewrite lookup_insert_ne, lookup_insert_eq].
  cbn in Hm. subst m.
  pose proof (run_length_take _ _ _ (proj2 Hn1)) as Hmk.
  apply all_eq_sign in Hmk.
  assert (Hlen : length (take n1 s) = n1).
  { rewrite length_take. pose proof (run_length_le is_eq_sign s). lia. }
  rewrite Hlen in Hmk.
  exists n1, (take n2 (drop n1 s)), (take n3 (drop n2 (drop n1 s))), ws2.
  split; [lia|]. split.
  - pose proof (take_drop n1 s) as E1.
    pose proof (take_drop n2 (drop n1 s)) as E2.
    pose proof (take_drop n3 (drop n2 (drop n1 s))) as E3.
    rewrite <- Hmk.
    destruct Hs as [Hs|Hs]; [left|right];
      rewrite <- Hs, E3, E2, E1; done.
  - split; [apply run_length_take; lia|]. split; [done|].
    split; [apply run_length_take; lia|].
    unfold group. rewrite lookup_insert_ne, !lookup_insert_eq by done.
    by rewrite <- Hmk.
Qed.

(** A match of [HEADING_RE] on a subject laid out as marker run, white
    space, name, white space, the same marker run. *)
Lemma heading_match k ws1 name ws2 :
  (1 ≤ k)%nat →
  Forall (fun c => is_space c = true) ws1 →
  Forall (fun c => is_space c = true) ws2 →
  Forall (fun c => is_dot c = true) name →
  (∃ c, head name = Some c ∧ is_space c = false ∧ is_eq_sign c = false) →
  (∃ c, last name = Some c ∧ is_space c = false) →
  re_match HEADING_RE
    (replicate k (chr "=") ++ ws1 ++ name ++ ws2 ++ replicate k (chr "="))
  = Some (<[2%nat := name]> (<[1%nat := replicate k (chr "=")]> ∅)).
Proof.
  intros Hk Hws1 Hws2 Hname (c & Hhead & Hc_sp & Hc_eq) (d & Hlast & Hd).
  apply head_Some in Hhead as [name' Hname'].
  apply last_Some in Hlast as [name'' Hname''].
  set (mk := replicate k (chr "=")).
  assert (Hmk_all : Forall (fun c => is_eq_sign c = true) mk).
  { apply Forall_replicate. by apply is_eq_sign_eq. }
  assert (Hmk_len : length mk = k) by apply length_replicate.
  assert (Hmk_head : ∃ c mk', mk = c :: mk' ∧ is_space c = false).
  { destruct k as [|k]; [lia|]. by exists (chr "="), (replicate k (chr "=")). }
  assert (Hmk_last : ∃ mk', mk = mk' ++ [chr "="]).
  { destruct k as [|k]; [lia|]. exists (replicate k (chr "=")).
    apply replicate_S_end. }
  enough (∃ e, exec HEADING_RE 0 (mk ++ ws1 ++ name ++ ws2 ++ mk) ∅
               = Some (e, <[2%nat := name]> (<[1%nat := mk]> ∅))) as [e He].
  { unfold re_match. by rewrite He. }
  eexists. unfold HEADING_RE. apply exec_bol.
  (* the run of signs is taken whole *)
  assert (Hrun1 : run_length is_eq_sign (mk ++ ws1 ++ name ++ ws2 ++ mk) = k).
  { rewrite <- Hmk_len. apply run_length_exact; [done|]. right.
    destruct Hws1 as [|x ws1 Hx _].
    - rewrite Hname'. by exists c, (name' ++ ws2 ++ mk).
    - exists x, (ws1 ++ name ++ ws2 ++ mk). split; [done|].
      by apply space_not_eq_sign. }
  apply exec_rep_greedy_top; rewrite Hrun1; [done|].
  rewrite drop_app_length', take_app_length' by done. cbn [set_group].
  (* so is the white space before the name *)
  assert (Hrun2 : run_length is_space (ws1 ++ name ++ ws2 ++ mk) = length ws1).
  { apply run_length_exact; [done|]. right. rewrite Hname'.
    by exists c, (name' ++ ws2 ++ mk). }
  apply exec_rep_greedy_top; rewrite Hrun2; [lia|].
  rewrite drop_app_length. cbn [set_group].
  (* the lazy group stops at the end of the name and no sooner *)
  apply (exec_rep_lazy _ _ _ _ _ _ _ (length name)).
  - split; [lia|]. rewrite run_length_app by done. lia.
  - intros i [_ Hi]. destruct (exec _ _ _ _) as [y|] eqn:Hex; [|done].
    exfalso. cbn [set_group] in Hex.
    eapply tail_inv in Hex as (ws & Hws & Hs & _);
      [|by rewrite lookup_insert_ne, lookup_insert_eq].
    rewrite drop_app_le in Hs by lia.
    assert (Hd_in : d ∈ drop i name).
    { rewrite Hname'', drop_app_le by (rewrite Hname'', length_app in Hi; cbn in Hi; lia).
      apply elem_of_app. right. apply list_elem_of_here. }
    destruct Hs as [Hs|Hs].
    + rewrite !app_assoc in Hs. apply app_inv_tail in Hs. subst ws.
      rewrite !Forall_app in Hws. destruct Hws as [Hws _].
      rewrite Forall_forall in Hws. apply Hws in Hd_in. congruence.
    + destruct Hmk_last as [mk' Hmk'].
      rewrite Hmk' in Hs at 1. rewrite !app_assoc in Hs.
      apply app_inj_tail in Hs as [_ Hs]. discriminate.
  - rewrite drop_app_length, take_app_length. cbn [set_group].
    apply tail_match; [done..|].
    by rewrite lookup_insert_ne, lookup_insert_eq.
Qed.

Lemma lstrip_keep c s : is_space c = false → lstrip (c :: s) = c :: s.
Proof. intros Hc. cbn. by rewrite Hc. Qed.

Lemma lstrip_head s c s' : lstrip s = c :: s' → is_space c = false.
Proof.
  induction s as [|x s IH]; cbn; [done|].
  destruct (is_space x) eqn:Hx; [done|]. by intros [= <- _].
Qed.

Lemma strip_keep s c d :
  head s = Some c → last s = Some d →
  is_space c = false → is_space d = false → strip s = s.
Proof.
  intros Hhead Hlast Hc Hd.
  apply head_Some in Hhead as [s1 ->].
  unfold strip, rstrip. rewrite lstrip_keep by done.
  apply last_Some in Hlast as [s2 ->].
  rewrite rev_app_distr. cbn [rev app]. rewrite lstrip_keep by done.
  cbn [rev]. by rewrite rev_involutive.
Qed.

Lemma strip_last b s c : strip b = s ++ [c] → is_space c = false.
Proof.
  unfold strip, rstrip. intros Hb.
  apply (f_equal (@rev char)) in Hb.
  rewrite rev_involutive, rev_app_distr in Hb. cbn in Hb.
  by apply lstrip_head in Hb.
Qed.

(** The heading branch of the loop body. *)
Lemma segment_block_heading st k ws1 name ws2 :
  (1 ≤ k)%nat →
  Forall (fun c => is_space c = true) ws1 →
  Forall (fun c => is_space c = true) ws2 →
  Forall (fun c => is_dot c = true) name →
  (∃ c, head name = Some c ∧ is_space c = false ∧ is_eq_sign c = false) →
  (∃ c, last name = Some c ∧ is_space c = false) →
  segment_block st
    (replicate k (chr "=") ++ ws1 ++ name ++ ws2 ++ replicate k (chr "="))
  = SegState name (per_section_index st) (rows st).
Proof.
  intros Hk Hws1 Hws2 Hname Hfirst Hlast.
  pose proof (heading_match k ws1 name ws2 Hk Hws1 Hws2 Hname Hfirst Hlast) as Hm.
  destruct Hfirst as (c & Hhead & Hc & _). destruct Hlast as (d & Hlast & Hd).
  unfold segment_block.
  assert (Hstrip : strip (replicate k (chr "=") ++ ws1 ++ name ++ ws2
                          ++ replicate k (chr "="))
                   = replicate k (chr "=") ++ ws1 ++ name ++ ws2
                     ++ replicate k (chr "=")).
  { destruct k as [|k]; [lia|].
    apply (strip_keep _ (chr "=") (chr "=")); [done| |done..].
    rewrite replicate_S_end, !app_assoc. apply last_snoc. }
  rewrite Hstrip, Hm.
  destruct k as [|k]; [lia|]. cbn [replicate app truthy negb].
  unfold group. rewrite lookup_insert_eq. cbn [default from_option id].
  rewrite (strip_keep name c d) by done.
  apply head_Some in Hhead as [name' ->]. done.
Qed.

End matcher.

(** C10. White space between a marker run and the name is any white
    space, newlines included: a block laid out as a run of [k] signs, white
    space, a name on one line that neither starts with a sign nor starts or
    ends with white space, white space, and the same run of [k] signs is a
    heading. The loop body makes the name the current section and emits no
    paragraph. *)
Theorem heading_any_white_space (st : seg_state) (k : nat) (ws1 name ws2 : str) :
  (1 ≤ k)%nat →
  Forall (fun c => is_space c = true) ws1 →
  Forall (fun c => is_space c = true) ws2 →
  Forall (fun c => is_dot c = true) name →
  (∃ c, head name = Some c ∧ is_space c = false ∧ is_eq_sign c = false) →
  (∃ c, last name = Some c ∧ is_space c = false) →
  segment_block st
    (replicate k (chr "=") ++ ws1 ++ name ++ ws2 ++ replicate k (chr "="))
  = SegState name (per_section_index st) (rows st).
Proof. apply segment_block_heading. Qed.

Lemma heading_any_white_space_witness :
  segment_block seg_init (py ("==" ++ nl ++ "Name" ++ nl ++ "=="))
  = SegState (py "Name") ∅ [].
Proof.
  apply (heading_any_white_space seg_init 2 [newline] (py "Name") [newline]).
  - lia.
  - repeat constructor.
  - repeat constructor.
  - repeat constructor.
  - exists (chr "N"). repeat split.
  - exists (chr "e"). repeat split.
Defined.

(** The block of the witness inside a text: the multi-line heading opens
    the section of the paragraph after it. *)
Example heading_multiline_example :
  split_into_section_paragraphs
    (py ("Intro" ++ nl ++ nl ++ "==" ++ nl ++ "Name" ++ nl ++ "==" ++ nl ++ nl ++ "Body"))
  = [ (py "Lead", py "Intro", 0); (py "Name", py "Body", 0) ].
Proof. vm_compute. reflexivity. Qed.

(** C3, as the code has it. A trimmed block is a heading only if it opens
    and closes with the same run of one or more signs around white space and
    a one-line name; and a block whose marker runs are single signs, such as
    ["= X ="], is a heading: the loop body makes its name the current section
    and emits no paragraph. *)
Theorem heading_marker_runs :
  (∀ (b : str) (m : gmap nat str),
     re_match HEADING_RE (strip b) = Some m →
     ∃ k ws1 name ws2,
       (1 ≤ k)%nat
       ∧ strip b = replicate k (chr "=") ++ ws1 ++ name ++ ws2 ++ replicate k (chr "=")
       ∧ Forall (fun c => is_space c = true) ws1
       ∧ Forall (fun c => is_space c = true) ws2
       ∧ Forall (fun c => is_dot c = true) name
       ∧ group m 2 = name)
  ∧ (∀ (st : seg_state) (ws1 name ws2 : str),
       Forall (fun c => is_space c = true) ws1 →
       Forall (fun c => is_space c = true) ws2 →
       Forall (fun c => is_dot c = true) name →
       (∃ c, head name = Some c ∧ is_space c = false ∧ is_eq_sign c = false) →
       (∃ c, last name = Some c ∧ is_space c = false) →
       segment_block st (py "=" ++ ws1 ++ name ++ ws2 ++ py "=")
       = SegState name (per_section_index st) (rows st)).
Proof.
  split.
  - intros b m Hm.
    apply heading_inv in Hm
      as (k & ws1 & name & ws2 & Hk & Hs & Hws1 & Hws2 & Hname & _ & Hg2).
    exists k, ws1, name, ws2. repeat split; try done.
    destruct Hs as [Hs|Hs]; [done|]. exfalso.
    rewrite !app_assoc in Hs. by apply strip_last in Hs.
  - intros st ws1 name ws2. by apply (segment_block_heading st 1).
Qed.

Lemma heading_marker_runs_witness :
  (∃ k ws1 name ws2,
     (1 ≤ k)%nat
     ∧ strip (py "= X =") = replicate k (chr "=") ++ ws1 ++ name ++ ws2 ++ replicate k (chr "=")
     ∧ Forall (fun c => is_space c = true) ws1
     ∧ Forall (fun c => is_space c = true) ws2
     ∧ Forall (fun c => is_dot c = true) name
     ∧ group (<[2%nat := py "X"]> (<[1%nat := py "="]> ∅)) 2 = name)
  ∧ segment_block seg_init (py "= X =") = SegState (py "X") ∅ [].
Proof.
  split.
  - apply (proj1 heading_marker_runs (py "= X =")). vm_compute. reflexivity.
  - apply (proj2 heading_marker_runs seg_init (py " ") (py "X") (py " ")).
    + repeat constructor.
    + repeat constructor.
    + repeat constructor.
    + exists (chr "X"). repeat split.
    + exists (chr "X"). repeat split.
Defined.

(** C3 as stated fails at ["= X ="]: the block matches the heading pattern
    and is not emitted as a paragraph of "Lead". *)
Lemma single_sign_marker_counterexample :
  ¬ (re_match HEADING_RE (py "= X =") = None
     ∧ rows (segment_block seg_init (py "= X ="))
       = [ (py "Lead", py "= X =", 0) ]).
Proof. intros [Hm _]. vm_compute in Hm. discriminate. Qed.

(** C2 (the code at the block of the claim). The block
    ["=== Not A Heading =="] matches [HEADING_RE]: after the run of three
    fails, the first group backs off to two signs and the name takes the
    third. The segmenter makes ["= Not A Heading"] the current section and
    emits no paragraph for the block. *)
Theorem heading_mismatch_example :
  re_match HEADING_RE (py "=== Not A Heading ==")
  = Some (<[2%nat := py "= Not A Heading"]> (<[1%nat := py "=="]> ∅))
  ∧ segment_block seg_init (py "=== Not A Heading ==")
    = SegState (py "= Not A Heading") ∅ []
  ∧ split_into_section_paragraphs
      (py ("Intro" ++ nl ++ nl ++ "=== Not A Heading ==" ++ nl ++ nl ++ "Body"))
    = [ (py "Lead", py "Intro", 0); (py "= Not A Heading", py "Body", 0) ].
Proof. vm_compute. done. Qed.

(** ** Identifier generator *)

(** The hash and the identifier on known values: the SHA-1 test vector
    ["abc"] and the version-5 UUID of the key ["T||Lead||0||aaaa"] in the URL
    namespace. *)
Example sha1_abc :
  sha1 [97; 98; 99] = be_bytes 20 0xa9993e364706816aba3e25717850c26c9cd0d89d.
Proof. vm_compute. reflexivity. Qed.

Example make_paragraph_id_example :
  make_paragraph_id (py "T") (py "Lead") 0 (py "aaaa")
  = py "67e50a58-c57c-5b3d-aa47-639693d354a5".
Proof. vm_compute. reflexivity. Qed.

(** C6. The identifier depends on the text only through its first 120
    characters. *)
Theorem id_depends_on_prefix (title section : str) (local_index : Z) (t1 t2 : str) :
  take 120 t1 = take 120 t2 →
  make_paragraph_id title section local_index t1
  = make_paragraph_id title section local_index t2.
Proof. intros Heq. unfold make_paragraph_id. by rewrite Heq. Qed.

Lemma id_depends_on_prefix_witness :
  replicate 120 (chr "a") ++ py "x" ≠ replicate 120 (chr "a") ++ py "yz"
  ∧ make_paragraph_id (py "T") (py "Lead") 0 (replicate 120 (chr "a") ++ py "x")
    = make_paragraph_id (py "T") (py "Lead") 0 (replicate 120 (chr "a") ++ py "yz").
Proof.
  split.
  - intros Heq. apply (f_equal length) in Heq. vm_compute in Heq. discriminate.
  - apply (id_depends_on_prefix (py "T") (py "Lead") 0). reflexivity.
Defined.

(** ** Dedup ledger *)

Lemma elem_of_load_row existing row x :
  x ∈ load_row existing row ↔ x ∈ existing ∨ has_id row x.
Proof.
  unfold load_row, has_id.
  destruct (row !! py "id") as [[v|]|] eqn:Hrow.
  - destruct v as [|c v]; cbn.
    + split; [auto|]. intros [?|[[= <-] ?]]; done.
    + rewrite elem_of_union, elem_of_singleton. split.
      * intros [->|?]; [right|left]; done.
      * intros [?|[[= <-] _]]; auto.
  - split; [auto|]. intros [?|[[=] _]]; done.
  - split; [auto|]. intros [?|[[=] _]]; done.
Qed.

Lemma elem_of_load_rows rows existing x :
  x ∈ fold_left load_row rows existing
  ↔ x ∈ existing ∨ ∃ row, row ∈ rows ∧ has_id row x.
Proof.
  revert existing. induction rows as [|row rows IH]; intros existing; cbn.
  - split; [auto|]. intros [?|(row & Hin & _)]; [done|]. by apply elem_of_nil in Hin.
  - rewrite IH, elem_of_load_row. split.
    + intros [[?|?]|(row' & Hin & Hid)]; [by left| |].
      * right. exists row. split; [apply list_elem_of_here|done].
      * right. exists row'. split; [by apply list_elem_of_further|done].
    + intros [?|(row' & Hin & Hid)]; [by left; left|].
      apply elem_of_cons in Hin as [->|Hin]; [by left; right|].
      right. by exists row'.
Qed.

(** C9. Building the ledger: a missing file gives the empty set; for an
    existing file the set holds exactly the [id] values of the rows that
    have one, so a row without an [id] value adds nothing and stops
    nothing. *)
Theorem load_existing_ids_spec :
  load_existing_ids None = ∅
  ∧ ∀ (f : csv_file) (x : str),
      x ∈ load_existing_ids (Some f) ↔ ∃ row, row ∈ dict_reader f ∧ has_id row x.
Proof.
  split; [done|]. intros f x. unfold load_existing_ids.
  rewrite elem_of_load_rows. split.
  - intros [Hin|?]; [|done]. by apply elem_of_empty in Hin.
  - by right.
Qed.

(** A table whose [id] column comes second: the short row, the empty
    record and the row with an empty [id] cell add nothing; the surplus cell
    of the last row is ignored. *)
Example load_existing_ids_example :
  let ids :=
    load_existing_ids
      (Some [ [py "title"; py "id"]; [py "t1"; py "x"]; [py "t2"]; [];
              [py "t3"; py ""]; [py "t4"; py "y"; py "z"] ]) in
  size ids = 2%nat ∧ py "x" ∈ ids ∧ py "y" ∈ ids.
Proof.
  cbv zeta. split; [vm_compute; reflexivity|].
  split; apply (bool_decide_unpack _); vm_compute; exact I.
Qed.

(** ** The writer read back *)

Section csv.

Lemma not_special c :
  is_special c = false →
  char_eqb c delimiter = false ∧ char_eqb c quotechar = false
  ∧ char_eqb c carriage_return = false ∧ char_eqb c newline = false.
Proof.
  unfold is_special. rewrite !orb_false_iff. tauto.
Qed.

Lemma option_fmap_app_nil (r : option (list (list str) * ReaderObj)) :
  prod_map (app []) id <$> r = r.
Proof. by destruct r as [[? ?]|]. Qed.

Lemma option_fmap_cons_app x recs (r : option (list (list str) * ReaderObj)) :
  prod_map (cons x) id <$> (prod_map (app recs) id <$> r)
  = prod_map (app (x :: recs)) id <$> r.
Proof. by destruct r as [[? ?]|]. Qed.

Lemma reader_scan_start fl c rest :
  is_line_break (Some c) = false →
  reader_scan (Reader START_RECORD fl []) (c :: rest)
  = reader_scan (Reader START_FIELD fl []) (c :: rest).
Proof.
  intros Hc. cbn [reader_scan]. unfold parse_process_char at 1 3.
  cbn [state]. by rewrite Hc.
Qed.

Lemma line_ends_inside c rest :
  char_eqb c newline = false → char_eqb c carriage_return = false → rest ≠ [] →
  line_ends c rest = false.
Proof. destruct rest; [done|]. unfold line_ends. by intros -> ->. Qed.

(** The characters of a field written without quotes. *)
Lemma scan_plain fl f :
  ∀ g w,
    existsb is_special f = false → w ≠ [] →
    Z.of_nat (length g) ≤ field_limit →
    reader_scan (Reader IN_FIELD fl g) (f ++ w)
    = if decide (Z.of_nat (length g + length f) ≤ field_limit)
      then reader_scan (Reader IN_FIELD fl (g ++ f)) w
      else None.
Proof.
  induction f as [|c f IH]; intros g w Hf Hw Hg.
  - cbn [app length]. rewrite Nat.add_0_r, decide_True, app_nil_r; done.
  - cbn [existsb] in Hf. apply orb_false_iff in Hf as [Hc Hf].
    destruct (not_special c Hc) as (Hd & Hq & Hcr & Hnl).
    cbn [app reader_scan]. unfold parse_process_char at 1.
    cbn [state is_line_break]. rewrite Hnl, Hcr, Hd. cbn [orb].
    unfold parse_add_char. cbn [field state fields].
    destruct (Z.leb_spec field_limit (Z.of_nat (length g))) as [Hfull|Hroom].
    + rewrite decide_False; [done|]. cbn [length]. lia.
    + rewrite line_ends_inside; [|done|done|by destruct f, w].
      rewrite IH; [|done|done|rewrite length_app; cbn [length]; lia].
      rewrite length_app. cbn [length].
      destruct (decide (Z.of_nat (length g + 1 + length f) ≤ field_limit)),
               (decide (Z.of_nat (length g + S (length f)) ≤ field_limit));
        try lia; [|done].
      by rewrite <- app_assoc.
Qed.

(** The characters of a field written between quotes. *)
Lemma scan_quoted fl f :
  ∀ g w,
    w ≠ [] →
    Z.of_nat (length g) ≤ field_limit →
    reader_scan (Reader IN_QUOTED_FIELD fl g) (double_quotes f ++ w)
    = if decide (Z.of_nat (length g + length f) ≤ field_limit)
      then reader_scan (Reader IN_QUOTED_FIELD fl (g ++ f)) w
      else None.
Proof.
  induction f as [|c f IH]; intros g w Hw Hg.
  - cbn [double_quotes app length]. rewrite Nat.add_0_r, decide_True, app_nil_r; done.
  - assert (Hrest : double_quotes f ++ w ≠ []) by (by destruct (double_quotes f), w).
    assert (Hnext :
      (if field_limit <=? Z.of_nat (length g) then None
       else reader_scan (Reader IN_QUOTED_FIELD fl (g ++ [c])) (double_quotes f ++ w))
      = if decide (Z.of_nat (length g + length (c :: f)) ≤ field_limit)
        then reader_scan (Reader IN_QUOTED_FIELD fl (g ++ c :: f)) w
        else None).
    { destruct (Z.leb_spec field_limit (Z.of_nat (length g))) as [Hfull|Hroom].
      - rewrite decide_False; [done|]. cbn [length]. lia.
      - rewrite IH; [|done|rewrite length_app; cbn [length]; lia].
        rewrite length_app. cbn [length].
        destruct (decide (Z.of_nat (length g + 1 + length f) ≤ field_limit)),
                 (decide (Z.of_nat (length g + S (length f)) ≤ field_limit));
          try lia; [|done].
        by rewrite <- app_assoc. }
    rewrite <- Hnext. clear Hnext IH.
    cbn [double_quotes]. destruct (char_eqb c quotechar) eqn:Hq.
    + apply char_eqb_eq in Hq as ->.
      cbn [app reader_scan]. unfold parse_process_char at 1.
      cbn [state]. rewrite char_eqb_refl.
      replace (line_ends quotechar (quotechar :: double_quotes f ++ w)) with false
        by reflexivity.
      unfold set_state. cbn [fields field reader_scan].
      unfold parse_process_char at 1. cbn [state]. rewrite char_eqb_refl.
      unfold parse_add_char, set_state. cbn [field state fields].
      destruct (field_limit <=? Z.of_nat (length g)); [done|].
      by rewrite line_ends_inside.
    + cbn [app reader_scan]. unfold parse_process_char at 1.
      cbn [state]. rewrite Hq.
      unfold parse_add_char. cbn [field state fields].
      destruct (field_limit <=? Z.of_nat (length g)); [done|].
      by destruct (line_ends c (double_quotes f ++ w)).
Qed.

Lemma scan_delimiter s fl g w :
  field_read s g → w ≠ [] →
  reader_scan (Reader s fl g) (delimiter :: w)
  = reader_scan (Reader START_FIELD (fl ++ [g]) []) w.
Proof.
  intros Hs Hw. cbn [reader_scan].
  rewrite line_ends_inside by done.
  by destruct Hs as [->|[[-> ->]| ->]].
Qed.

Lemma scan_terminator s fl g v :
  field_read s g →
  reader_scan (Reader s fl g) (lineterminator ++ v)
  = prod_map (cons (fl ++ [g])) id <$> reader_scan parse_reset v.
Proof.
  intros Hs. unfold lineterminator. cbn [app reader_scan].
  replace (line_ends carriage_return (newline :: v)) with false by reflexivity.
  assert (Hend : line_ends newline v = true) by (by destruct v).
  destruct Hs as [->|[[-> ->]| ->]]; cbn; by rewrite Hend.
Qed.

(** One field as the writer lays it out, from the start of a field. *)
Lemma scan_field fl f w :
  w ≠ [] →
  ∃ s, field_read s f
       ∧ reader_scan (Reader START_FIELD fl []) (join_append f ++ w)
         = if decide (Z.of_nat (length f) ≤ field_limit)
           then reader_scan (Reader s fl f) w
           else None.
Proof.
  intros Hw. unfold join_append. destruct (existsb is_special f) eqn:Hf.
  - exists QUOTE_IN_QUOTED_FIELD. split; [by right; right|].
    cbn [app reader_scan]. unfold parse_process_char at 1. cbn [state is_line_break].
    replace (char_eqb quotechar newline || char_eqb quotechar carriage_return)
      with false by reflexivity.
    rewrite char_eqb_refl. unfold set_state. cbn [fields field].
    rewrite line_ends_inside;
      [|done|done|by destruct (double_quotes f)].
    rewrite <- app_assoc, scan_quoted; [|done|done].
    cbn [length Nat.add app]. destruct (decide _); [|done].
    cbn [reader_scan]. unfold parse_process_char at 1. cbn [state].
    rewrite char_eqb_refl. by rewrite line_ends_inside.
  - destruct f as [|c f].
    + exists START_FIELD. split; [by right; left|].
      cbn [app length]. by rewrite decide_True.
    + exists IN_FIELD. split; [by left|].
      pose proof Hf as Hcf. cbn [existsb] in Hcf.
      apply orb_false_iff in Hcf as [Hc Hf'].
      destruct (not_special c Hc) as (Hd & Hq & Hcr & Hnl).
      cbn [app reader_scan]. unfold parse_process_char at 1.
      cbn [state is_line_break]. rewrite Hnl, Hcr, Hq, Hd. cbn [orb].
      unfold parse_add_char, set_state. cbn [field state fields length].
      replace (field_limit <=? Z.of_nat 0) with false by reflexivity.
      rewrite line_ends_inside by (done || by destruct f, w).
      rewrite scan_plain; [|done|done|done].
      cbn [length Nat.add app]. by destruct (decide _).
Qed.

Lemma fits_cons f row :
  fits (f :: row) ↔ Z.of_nat (length f) ≤ field_limit ∧ fits row.
Proof. unfold fits. by rewrite Forall_cons. Qed.

(** The fields of a row and the line terminator, from the start of a
    field. *)
Lemma scan_row row :
  ∀ fl v,
    row ≠ [] →
    reader_scan (Reader START_FIELD fl [])
                (join [delimiter] (join_append <$> row) ++ lineterminator ++ v)
    = if decide (fits row)
      then prod_map (cons (fl ++ row)) id <$> reader_scan parse_reset v
      else None.
Proof.
  induction row as [|f row IH]; intros fl v Hrow; [done|].
  destruct row as [|f2 row].
  - cbn [fmap list_fmap join].
    destruct (scan_field fl f (lineterminator ++ v)) as (s & Hs & ->); [done|].
    destruct (decide (Z.of_nat (length f) ≤ field_limit)) as [Hfit|Hfit].
    + rewrite decide_True by (apply fits_cons; split; [done|constructor]).
      by apply scan_terminator.
    + rewrite decide_False; [done|]. by intros [? _]%fits_cons.
  - change (join [delimiter] (join_append <$> f :: f2 :: row))
      with (join_append f ++ [delimiter] ++ join [delimiter] (join_append <$> f2 :: row)).
    rewrite <- !app_assoc.
    destruct (scan_field fl f ([delimiter]
                ++ join [delimiter] (join_append <$> f2 :: row)
                ++ lineterminator ++ v)) as (s & Hs & ->); [done|].
    destruct (decide (Z.of_nat (length f) ≤ field_limit)) as [Hfit|Hfit].
    + cbn [app]. rewrite scan_delimiter; [|done|by destruct (join _ _)].
      rewrite IH by done.
      destruct (decide (fits (f2 :: row))) as [Hrest|Hrest].
      * rewrite decide_True by (by apply fits_cons).
        by rewrite <- app_assoc.
      * rewrite decide_False; [done|]. by intros [_ ?]%fits_cons.
    + rewrite decide_False; [done|]. by intros [? _]%fits_cons.
Qed.

Lemma join_append_head f c e :
  join_append f = c :: e → is_line_break (Some c) = false.
Proof.
  unfold join_append. destruct (existsb is_special f) eqn:Hf.
  - by intros [= <- _].
  - intros ->. cbn [existsb] in Hf. apply orb_false_iff in Hf as [Hc _].
    destruct (not_special c Hc) as (_ & _ & Hcr & Hnl).
    cbn [is_line_break]. by rewrite Hnl, Hcr.
Qed.

Lemma join_head row c e :
  join [delimiter] (join_append <$> row) = c :: e → is_line_break (Some c) = false.
Proof.
  destruct row as [|f [|f2 row]]; [done| |].
  - apply join_append_head.
  - change (join [delimiter] (join_append <$> f :: f2 :: row))
      with (join_append f ++ [delimiter] ++ join [delimiter] (join_append <$> f2 :: row)).
    destruct (join_append f) as [|c' e'] eqn:Hf.
    + by intros [= <- _].
    + intros [= -> _]. by eapply join_append_head.
Qed.

Lemma join_nil row :
  join [delimiter] (join_append <$> row) = [] → row = [] ∨ row = [[]].
Proof.
  destruct row as [|f [|f2 row]]; [by left| |].
  - cbn [fmap list_fmap join]. unfold join_append.
    destruct (existsb is_special f); [done|]. intros ->. by right.
  - change (join [delimiter] (join_append <$> f :: f2 :: row))
      with (join_append f ++ [delimiter] ++ join [delimiter] (join_append <$> f2 :: row)).
    by destruct (join_append f).
Qed.

(** What the writer lays out for a row, the reader takes for that row,
    unless a field is over the limit. *)
Lemma writerow_read row v :
  reader_scan parse_reset (writerow row ++ v)
  = if decide (fits row)
    then prod_map (cons row) id <$> reader_scan parse_reset v
    else None.
Proof.
  assert (Hend : line_ends newline v = true) by (by destruct v).
  destruct row as [|f row].
  { rewrite decide_True by constructor. cbn. by rewrite Hend. }
  unfold writerow. cbv zeta.
  destruct (join [delimiter] (join_append <$> f :: row)) as [|c e] eqn:Hrec.
  - destruct (join_nil _ Hrec) as [[=]|[= -> ->]].
    rewrite decide_True by (by repeat constructor). cbn. by rewrite Hend.
  - pose proof (join_head _ c e Hrec) as Hc.
    rewrite <- app_assoc. cbn [app]. unfold parse_reset at 1.
    rewrite reader_scan_start by done.
    change (c :: e ++ lineterminator ++ v) with ((c :: e) ++ lineterminator ++ v).
    rewrite <- Hrec. by rewrite scan_row.
Qed.

Lemma csv_text_cons row rows : csv_text (row :: rows) = writerow row ++ csv_text rows.
Proof. reflexivity. Qed.

Lemma csv_text_app rows1 rows2 :
  csv_text (rows1 ++ rows2) = csv_text rows1 ++ csv_text rows2.
Proof. unfold csv_text. by rewrite fmap_app, concat_app. Qed.

Lemma csv_text_read rows :
  ∀ v,
    reader_scan parse_reset (csv_text rows ++ v)
    = if decide (Forall fits rows)
      then prod_map (app rows) id <$> reader_scan parse_reset v
      else None.
Proof.
  induction rows as [|row rows IH]; intros v.
  - rewrite decide_True by constructor. cbn [csv_text fmap list_fmap concat app].
    by rewrite option_fmap_app_nil.
  - rewrite csv_text_cons, <- app_assoc, writerow_read.
    destruct (decide (fits row)) as [Hrow|Hrow].
    + rewrite IH. destruct (decide (Forall fits rows)) as [Hrows|Hrows].
      * rewrite decide_True by (by constructor). apply option_fmap_cons_app.
      * rewrite decide_False; [done|]. by intros [_ ?]%Forall_cons.
    + rewrite decide_False; [done|]. by intros [? _]%Forall_cons.
Qed.

(** The text of the writer never starts with a newline. *)
Lemma writerow_head row : head (writerow row) ≠ Some newline.
Proof.
  destruct row as [|f row]; [done|].
  unfold writerow. cbv zeta.
  destruct (join [delimiter] (join_append <$> f :: row)) as [|c e] eqn:Hrec; [done|].
  cbn. intros [= ->]. by apply join_head in Hrec.
Qed.

Lemma writerow_not_nil row : writerow row ≠ [].
Proof.
  unfold writerow, lineterminator. cbv zeta.
  by destruct (match row with [] => _ | _ => _ end).
Qed.

Lemma csv_text_head rows : head (csv_text rows) ≠ Some newline.
Proof.
  destruct rows as [|row rows]; [done|]. rewrite csv_text_cons.
  pose proof (writerow_head row) as Hrow.
  pose proof (writerow_not_nil row) as Hne.
  by destruct (writerow row).
Qed.

(** Characters added to a text that ends with a line break are read after
    what the text leaves of the parser. *)
Lemma reader_scan_app text :
  ∀ self u,
    ends_with_line_break text = true → head u ≠ Some newline →
    reader_scan self (text ++ u)
    = match reader_scan self text with
      | None => None
      | Some (records, self') => prod_map (app records) id <$> reader_scan self' u
      end.
Proof.
  induction text as [|c text IH]; intros self u Hend Hu; [done|].
  cbn [app reader_scan].
  destruct (parse_process_char self (Some c)) as [self1|]; [|done].
  destruct text as [|d text].
  - cbn [app line_ends].
    assert (Hline : line_ends c u = true).
    { unfold ends_with_line_break in Hend. cbn in Hend.
      destruct u as [|e u]; [done|]. cbn [line_ends].
      destruct (char_eqb c newline); [done|]. cbn [orb] in Hend. rewrite Hend.
      cbn [orb andb]. destruct (char_eqb e newline) eqn:He; [|done].
      apply char_eqb_eq in He as ->. done. }
    rewrite Hline.
    destruct (parse_process_char self1 None) as [self2|]; [|done].
    destruct (state self2); cbn [reader_scan fmap option_fmap option_map prod_map fst snd id];
      try (by rewrite option_fmap_app_nil).
    by destruct (reader_scan parse_reset u) as [[? ?]|].
  - assert (Hend' : ends_with_line_break (d :: text) = true) by done.
    change ((d :: text) ++ u) with (d :: text ++ u).
    change (line_ends c (d :: text ++ u)) with (line_ends c (d :: text)).
    destruct (line_ends c (d :: text)).
    + destruct (parse_process_char self1 None) as [self2|]; [|done].
      destruct (state self2);
        try (change (d :: text ++ u) with ((d :: text) ++ u); by rewrite IH).
      change (d :: text ++ u) with ((d :: text) ++ u). rewrite IH by done.
      destruct (reader_scan parse_reset (d :: text)) as [[recs self3]|]; [|done].
      cbn [fmap option_fmap option_map prod_map fst snd id].
      by destruct (reader_scan self3 u) as [[? ?]|].
    + change (d :: text ++ u) with ((d :: text) ++ u). by rewrite IH.
Qed.

Lemma ends_with_line_break_app text u :
  ends_with_line_break u = true → ends_with_line_break (text ++ u) = true.
Proof.
  unfold ends_with_line_break. destruct u as [|c u] using rev_ind; [done|].
  by rewrite app_assoc, !last_snoc.
Qed.

Lemma writerow_ends row : ends_with_line_break (writerow row) = true.
Proof.
  unfold writerow, lineterminator. cbv zeta.
  apply ends_with_line_break_app. reflexivity.
Qed.

Lemma csv_text_ends rows :
  rows ≠ [] → ends_with_line_break (csv_text rows) = true.
Proof.
  destruct rows as [|row rows] using rev_ind; [done|]. intros _.
  rewrite csv_text_app. apply ends_with_line_break_app.
  cbn [csv_text fmap list_fmap concat]. rewrite app_nil_r. apply writerow_ends.
Qed.

(** Records written at the end of a text of complete records. *)
Lemma holds_records_extend text records rows :
  holds_records text records → Forall fits rows →
  holds_records (text ++ csv_text rows) (records ++ rows).
Proof.
  intros [Hend Hscan] Hfit. split.
  - destruct rows as [|row rows]; [by rewrite app_nil_r|].
    by apply ends_with_line_break_app, csv_text_ends.
  - rewrite reader_scan_app, Hscan by (done || apply csv_text_head).
    rewrite <- (app_nil_r (csv_text rows)), csv_text_read.
    rewrite decide_True by done. cbn. by rewrite app_nil_r.
Qed.

Lemma csv_reader_extend text records rows :
  holds_records text records →
  csv_reader (text ++ csv_text rows)
  = if decide (Forall fits rows) then Some (records ++ rows) else None.
Proof.
  intros [Hend Hscan]. unfold csv_reader.
  rewrite reader_scan_app, Hscan by (done || apply csv_text_head).
  rewrite <- (app_nil_r (csv_text rows)), csv_text_read.
  destruct (decide (Forall fits rows)); [|done].
  cbn. by rewrite !app_nil_r.
Qed.

Lemma holds_records_written rows :
  rows ≠ [] → Forall fits rows → holds_records (csv_text rows) rows.
Proof.
  intros Hne Hfit. split; [by apply csv_text_ends|].
  rewrite <- (app_nil_r (csv_text rows)), csv_text_read.
  rewrite decide_True by done. cbn. by rewrite app_nil_r.
Qed.

Lemma csv_reader_written rows :
  csv_reader (csv_text rows)
  = if decide (Forall fits rows) then Some rows else None.
Proof.
  unfold csv_reader.
  rewrite <- (app_nil_r (csv_text rows)), csv_text_read.
  destruct (decide (Forall fits rows)); [|done].
  cbn. by rewrite !app_nil_r.
Qed.

Lemma holds_records_read text records :
  holds_records text records → csv_reader text = Some records.
Proof.
  intros [_ Hscan]. unfold csv_reader. rewrite Hscan. cbn. by rewrite app_nil_r.
Qed.

End csv.

(** ** Dictionaries written and read *)

Section dictionaries.

Lemma fold_insert_notin {V} (h : str → V) (l : list (str * str)) (d0 : gmap str V) k :
  k ∉ l.*1 →
  fold_left (fun d kv => <[kv.1 := h kv.2]> d) l d0 !! k = d0 !! k.
Proof.
  revert d0. induction l as [|[k' v] l IH]; intros d0 Hk; [done|].
  cbn [fold_left]. rewrite fmap_cons in Hk. apply not_elem_of_cons in Hk as [Hne Hk].
  rewrite IH by done. cbn. by rewrite lookup_insert_ne.
Qed.

Lemma fold_insert_same {V} (h : str → V) (g : str → str) (fn : list str)
    (d0 : gmap str V) (k : str) :
  fold_left (fun d kv => <[kv.1 := h kv.2]> d) ((fun x => (x, g x)) <$> fn) d0 !! k
  = if decide (k ∈ fn) then Some (h (g k)) else d0 !! k.
Proof.
  revert d0. induction fn as [|x fn IH]; intros d0; [done|].
  rewrite fmap_cons. cbn [fold_left]. rewrite IH. cbn [fst snd].
  destruct (decide (k ∈ fn)) as [Hin|Hnotin].
  - rewrite decide_True; [done|]. by apply list_elem_of_further.
  - destruct (decide (k = x)) as [->|Hne].
    + rewrite decide_True by apply list_elem_of_here. by rewrite lookup_insert_eq.
    + rewrite decide_False by (intros [?|?]%elem_of_cons; done).
      by rewrite lookup_insert_ne.
Qed.

Lemma zip_with_self (g : str → str) (fn : list str) :
  zip fn (g <$> fn) = (fun x => (x, g x)) <$> fn.
Proof. induction fn as [|x fn IH]; [done|]. cbn. by rewrite <- IH. Qed.

Lemma fold_none_notin (l : list str) (d : gmap str (option str)) (k : str) :
  k ∉ l → fold_left (fun d key => <[key := None]> d) l d !! k = d !! k.
Proof.
  revert d. induction l as [|x l IH]; intros d Hl; [done|]. cbn [fold_left].
  apply not_elem_of_cons in Hl as [Hne Hl]. rewrite IH by done.
  by rewrite lookup_insert_ne.
Qed.

Lemma dict_row_notin (fieldnames row : list str) (k : str) :
  k ∉ fieldnames → dict_row fieldnames row !! k = None.
Proof.
  intros Hk. unfold dict_row. rewrite fold_none_notin.
  - rewrite (fold_insert_notin Some); [done|].
    intros Hin. apply Hk. apply list_elem_of_fmap in Hin as ([k' v] & -> & Hin).
    by apply elem_of_zip_l in Hin.
  - intros Hin. apply Hk. by eapply elem_of_sublist, sublist_drop.
Qed.

Lemma row_cells_header (fieldnames : list str) :
  row_cells fieldnames
    (fold_left (fun d kv => <[kv.1 := kv.2]> d) (zip fieldnames fieldnames) ∅)
  = fieldnames.
Proof.
  unfold row_cells.
  pose proof (zip_with_self id fieldnames) as Hzip.
  rewrite list_fmap_id in Hzip. rewrite Hzip.
  transitivity (id <$> fieldnames); [|apply list_fmap_id].
  apply Forall_fmap_ext_1, Forall_forall. intros key Hkey.
  by rewrite (fold_insert_same id id), decide_True.
Qed.

Lemma header_keys (fieldnames : list str) :
  map_Forall (fun key (_ : str) => key ∈ fieldnames)
    (fold_left (fun d kv => <[kv.1 := kv.2]> d) (zip fieldnames fieldnames)
               (∅ : gmap str str)).
Proof.
  assert (Hfold : ∀ (l : list (str * str)) (d : gmap str str),
            map_Forall (fun key (_ : str) => key ∈ fieldnames) d →
            Forall (fun kv => kv.1 ∈ fieldnames) l →
            map_Forall (fun key (_ : str) => key ∈ fieldnames)
              (fold_left (fun d kv => <[kv.1 := kv.2]> d) l d)).
  { induction l as [|kv l IH]; intros d Hd Hl; [done|]. cbn [fold_left].
    apply Forall_cons in Hl as [Hkv Hl]. apply IH; [|done].
    by apply map_Forall_insert_2. }
  apply Hfold; [apply map_Forall_empty|].
  apply Forall_forall. intros [k v] Hin. by apply elem_of_zip_l in Hin.
Qed.

Lemma writeheader_text (fieldnames : list str) (f : str) :
  writeheader fieldnames f = Some (f ++ writerow fieldnames).
Proof.
  unfold writeheader, DictWriter_writerow, dict_to_list.
  rewrite bool_decide_eq_true_2 by apply header_keys.
  by rewrite row_cells_header.
Qed.

Lemma write_rows_text (fieldnames : list str) (rows : list (gmap str str)) :
  ∀ f n,
    Forall (map_Forall (fun key (_ : str) => key ∈ fieldnames)) rows →
    write_rows fieldnames f rows n
    = (f ++ csv_text (row_cells fieldnames <$> rows), Some (n + length rows)%nat).
Proof.
  induction rows as [|r rows IH]; intros f n Hrows.
  - cbn. by rewrite app_nil_r, Nat.add_0_r.
  - apply Forall_cons in Hrows as [Hr Hrows]. cbn [write_rows].
    unfold DictWriter_writerow, dict_to_list.
    rewrite bool_decide_eq_true_2 by done. rewrite IH by done.
    rewrite fmap_cons, csv_text_cons, <- app_assoc. cbn [length].
    do 2 f_equal. lia.
Qed.

(** [append_rows] on rows that have no key outside the field names. *)
Lemma append_rows_text (out_csv : option str) (rows : list (gmap str str))
    (fieldnames : list str) :
  Forall (map_Forall (fun key (_ : str) => key ∈ fieldnames)) rows →
  append_rows out_csv rows fieldnames
  = (Some (base_text fieldnames out_csv ++ csv_text (row_cells fieldnames <$> rows)),
     Some (length rows)).
Proof.
  intros Hrows. unfold append_rows. cbv zeta.
  destruct out_csv as [text|]; cbn [default from_option id base_text].
  - rewrite bool_decide_eq_true_2 by done. by rewrite write_rows_text.
  - rewrite bool_decide_eq_false_2 by (by intros [? ?]).
    rewrite writeheader_text, write_rows_text by done. done.
Qed.

End dictionaries.

(** ** Pipeline driver *)

Section driver.

Variable a : args.

Local Arguments make_paragraph_id : simpl never.
Local Arguments make_row : simpl never.

Lemma union_cons_ledger (x : str) (ids ledger : gset str) :
  ids ∪ ({[x]} ∪ ledger) = {[x]} ∪ ids ∪ ledger.
Proof.
  rewrite (assoc_L (∪)). f_equal. apply (comm_L (∪)).
Qed.

Lemma row_id_make_row pid title section para_idx para :
  row_id (make_row pid title section para_idx para) = pid.
Proof. reflexivity. Qed.

Lemma keep_loop_rows title ps kept ledger rows :
  keep_loop a title ps kept ledger rows
  = let new := take (Z.to_nat (max_paragraphs_per_article a - Z.of_nat kept))
                    (keep_all a title ps ledger) in
    ((kept + length new)%nat, list_to_set (row_id <$> new) ∪ ledger, rows ++ new).
Proof.
  revert kept ledger rows.
  induction ps as [|[[section para] para_idx] ps IH]; intros kept ledger rows.
  - cbn [keep_loop keep_all]. cbv zeta. rewrite take_nil.
    cbn [length fmap list_fmap list_to_set].
    f_equal; [f_equal|]; [lia|by rewrite union_empty_l_L|by rewrite app_nil_r].
  - cbn [keep_loop keep_all]. cbv zeta.
    destruct (Z.geb_spec (Z.of_nat kept) (max_paragraphs_per_article a)) as [Hcap|Hcap].
    { replace (Z.to_nat (max_paragraphs_per_article a - Z.of_nat kept)) with 0%nat by lia.
      rewrite take_0. cbn [length fmap list_fmap list_to_set].
      f_equal; [f_equal|]; [lia|by rewrite union_empty_l_L|by rewrite app_nil_r]. }
    destruct (Z.of_nat (length para) <? min_chars a); [apply IH|].
    case_bool_decide; [apply IH|].
    rewrite IH. cbv zeta.
    replace (Z.to_nat (max_paragraphs_per_article a - Z.of_nat kept))
      with (S (Z.to_nat (max_paragraphs_per_article a - Z.of_nat (S kept)))) by lia.
    rewrite firstn_cons, fmap_cons, row_id_make_row.
    cbn [length list_to_set].
    f_equal; [f_equal|]; [lia|apply union_cons_ledger|by rewrite <- app_assoc].
Qed.

Lemma qualifying_cons r ps :
  qualifying a (r :: ps)
  = if Z.of_nat (length (text_of r)) <? min_chars a
    then qualifying a ps else r :: qualifying a ps.
Proof.
  unfold qualifying. rewrite filter_cons.
  destruct (Z.ltb_spec (Z.of_nat (length (text_of r))) (min_chars a));
    case_decide; done || lia.
Qed.

Lemma keep_all_length title ps ledger :
  (length (keep_all a title ps ledger) ≤ length (qualifying a ps))%nat.
Proof.
  revert ledger. induction ps as [|[[section para] para_idx] ps IH]; intros ledger.
  - done.
  - rewrite qualifying_cons. cbn [keep_all text_of fst snd].
    destruct (Z.of_nat (length para) <? min_chars a); [apply IH|].
    case_bool_decide; cbn [length].
    + specialize (IH ledger). lia.
    + specialize (IH ({[make_paragraph_id title section para_idx para]} ∪ ledger)). lia.
Qed.

Lemma keep_all_covers title ps ledger x :
  x ∈ ids_of a title ps →
  x ∈ list_to_set (C := gset str) (row_id <$> keep_all a title ps ledger) ∪ ledger.
Proof.
  revert ledger. unfold ids_of.
  induction ps as [|[[section para] para_idx] ps IH]; intros ledger.
  - intros Hx. by apply elem_of_nil in Hx.
  - rewrite qualifying_cons. cbn [keep_all text_of section_of index_of fst snd].
    destruct (Z.of_nat (length para) <? min_chars a); [apply IH|].
    rewrite fmap_cons. cbn [text_of section_of index_of fst snd].
    generalize (make_paragraph_id title section para_idx para). intros pid.
    generalize (make_row pid title section para_idx para) (row_id_make_row pid title section para_idx para).
    intros row Hrow Hx.
    apply elem_of_cons in Hx as [->|Hx].
    + case_bool_decide as Hpid.
      * apply elem_of_union. by right.
      * rewrite fmap_cons, Hrow. cbn [list_to_set].
        apply elem_of_union. left. apply elem_of_union. left.
        by apply elem_of_singleton.
    + case_bool_decide as Hpid; [by apply IH|].
      rewrite fmap_cons, Hrow. cbn [list_to_set].
      specialize (IH ({[pid]} ∪ ledger) Hx).
      rewrite !elem_of_union in IH. rewrite !elem_of_union. tauto.
Qed.

Lemma keep_all_settled title ps ledger :
  (∀ x, x ∈ ids_of a title ps → x ∈ ledger) → keep_all a title ps ledger = [].
Proof.
  unfold ids_of. induction ps as [|[[section para] para_idx] ps IH]; [done|].
  rewrite qualifying_cons. cbn [keep_all text_of fst snd].
  destruct (Z.of_nat (length para) <? min_chars a); [exact IH|].
  rewrite fmap_cons. cbn [text_of section_of index_of fst snd].
  generalize (make_paragraph_id title section para_idx para). intros pid Hall.
  rewrite bool_decide_eq_true_2.
  - apply IH. intros x Hx. apply Hall. by apply list_elem_of_further.
  - apply Hall. apply list_elem_of_here.
Qed.

Lemma keep_all_made title ps ledger : Forall made_row (keep_all a title ps ledger).
Proof.
  revert ledger. induction ps as [|[[section para] para_idx] ps IH]; intros ledger.
  - constructor.
  - cbn [keep_all]. destruct (_ <? _); [apply IH|].
    case_bool_decide; [apply IH|]. constructor; [|apply IH].
    by exists title, section, para_idx, para.
Qed.

(** *** The table written and read back *)

Lemma truthy_make_paragraph_id title section para_idx para :
  truthy (make_paragraph_id title section para_idx para) = true.
Proof.
  unfold make_paragraph_id, str_of_uuid.
  generalize (hex32 (uuid5 NAMESPACE_URL
    (title ++ py "||" ++ section ++ py "||" ++ str_of_int para_idx ++ py "||"
     ++ take 120 para))).
  intros hex. by destruct (take 8 hex).
Qed.

Lemma make_row_keys pid title section para_idx para :
  map_Forall (fun key (_ : str) => key ∈ fieldnames)
             (make_row pid title section para_idx para).
Proof.
  unfold make_row.
  repeat (apply map_Forall_insert_2;
          [apply (bool_decide_unpack _); vm_compute; exact I|]).
  apply map_Forall_empty.
Qed.

Lemma made_row_keys r :
  made_row r → map_Forall (fun key (_ : str) => key ∈ fieldnames) r.
Proof. intros (title & section & para_idx & para & ->). apply make_row_keys. Qed.

Lemma made_row_cells pid title section para_idx para :
  row_cells fieldnames (make_row pid title section para_idx para)
  = [pid; title;
     py "https://en.wikipedia.org/wiki/" ++ replace_char (chr " ") (chr "_") title;
     section; str_of_int para_idx; strip (replace_char newline (chr " ") para)].
Proof. reflexivity. Qed.

Lemma load_row_made existing header r :
  id_first header → made_row r →
  row_cells fieldnames r ≠ []
  ∧ load_row existing (dict_row header (row_cells fieldnames r))
    = {[row_id r]} ∪ existing.
Proof.
  intros (rest & -> & Hrest) (title & section & para_idx & para & ->).
  rewrite made_row_cells, row_id_make_row. split; [done|].
  generalize (make_paragraph_id title section para_idx para)
             (truthy_make_paragraph_id title section para_idx para).
  intros pid Hpid. unfold load_row.
  assert (Hid : dict_row (py "id" :: rest)
                  [pid; title;
                   py "https://en.wikipedia.org/wiki/"
                   ++ replace_char (chr " ") (chr "_") title;
                   section; str_of_int para_idx;
                   strip (replace_char newline (chr " ") para)] !! py "id"
                = Some (Some pid)).
  { unfold dict_row. rewrite fold_none_notin.
    - cbn [zip zip_with fold_left fst snd]. rewrite (fold_insert_notin Some).
      + apply lookup_insert_eq.
      + intros Hin. apply Hrest. apply list_elem_of_fmap in Hin as ([k v] & -> & Hin).
        by apply elem_of_zip_l in Hin.
    - intros Hin. apply Hrest.
      cbn [length drop] in Hin. by eapply elem_of_sublist, sublist_drop. }
  by rewrite Hid, Hpid.
Qed.

Lemma load_made_rows existing header new :
  id_first header → Forall made_row new →
  fold_left load_row
    (dict_row header
       <$> filter (fun row : list str => row ≠ []) (row_cells fieldnames <$> new))
    existing
  = list_to_set (row_id <$> new) ∪ existing.
Proof.
  intros Hheader Hnew. revert existing.
  induction Hnew as [|r new Hr _ IH]; intros existing.
  - cbn. by rewrite union_empty_l_L.
  - destruct (load_row_made existing header r Hheader Hr) as [Hne Hload].
    rewrite !fmap_cons, filter_cons_True by done.
    rewrite fmap_cons. cbn [fold_left]. rewrite Hload, IH.
    cbn [list_to_set]. apply union_cons_ledger.
Qed.

Lemma id_first_fieldnames : id_first fieldnames.
Proof.
  eexists. split; [reflexivity|].
  intros Hin. apply (bool_decide_pack _) in Hin. vm_compute in Hin. exact Hin.
Qed.

Lemma fits_fieldnames : fits fieldnames.
Proof. repeat constructor; vm_compute; discriminate. Qed.

(** The records of a table after rows have been written at its end; a
    missing table gets its header first. *)
Lemma load_extended csv_path new :
  (csv_path = None ∨ ∃ header data, csv_path = Some (header :: data) ∧ id_first header) →
  Forall made_row new →
  load_existing_ids
    (Some (default [fieldnames] csv_path ++ (row_cells fieldnames <$> new)))
  = list_to_set (row_id <$> new) ∪ load_existing_ids csv_path.
Proof.
  intros [->|(header & data & -> & Hheader)] Hnew;
    cbn [default from_option id app load_existing_ids dict_reader].
  - apply load_made_rows; [apply id_first_fieldnames|done].
  - rewrite filter_app, fmap_app, fold_left_app. by apply load_made_rows.
Qed.

Lemma read_table_ok file :
  table_ok file →
  ∃ csv_path,
    read_csv file = Some csv_path
    ∧ (csv_path = None
       ∨ ∃ header data, csv_path = Some (header :: data) ∧ id_first header)
    ∧ (file = None ↔ csv_path = None)
    ∧ ∀ text, file = Some text → holds_records text (default [] csv_path).
Proof.
  intros [->|(text & header & data & -> & Hholds & Hheader)].
  - exists None. split; [done|]. split; [by left|]. split; done.
  - exists (Some (header :: data)). cbn [read_csv].
    rewrite (holds_records_read _ _ Hholds). split; [done|].
    split; [right; by eauto|]. split; [done|]. by intros ? [= <-].
Qed.

(** What the next run reads from the table after rows have been written at
    its end. *)
Lemma read_extended file csv_path cells :
  table_ok file → read_csv file = Some csv_path →
  read_csv (Some (base_text fieldnames file ++ csv_text cells))
  = (if decide (Forall fits cells)
     then Some (Some (default [fieldnames] csv_path ++ cells))
     else None)
  ∧ (Forall fits cells →
     holds_records (base_text fieldnames file ++ csv_text cells)
                   (default [fieldnames] csv_path ++ cells)).
Proof.
  intros Htable Hread.
  destruct (read_table_ok file Htable) as (csv_path' & Hread' & Hhead & Hnone & Hholds).
  assert (csv_path' = csv_path) as -> by congruence.
  destruct file as [text|]; cbn [base_text read_csv].
  - specialize (Hholds text eq_refl).
    destruct Hhead as [->|(header & data & -> & _)];
      [destruct Hnone as [_ Hn]; by specialize (Hn eq_refl)|].
    cbn [default from_option id] in *.
    rewrite (csv_reader_extend _ _ _ Hholds). split.
    + by destruct (decide (Forall fits cells)).
    + by apply holds_records_extend.
  - assert (csv_path = None) as -> by (by apply Hnone).
    cbn [default from_option id].
    change (writerow fieldnames ++ csv_text cells) with (csv_text (fieldnames :: cells)).
    rewrite csv_reader_written. split.
    + destruct (decide (Forall fits cells)) as [Hfit|Hfit].
      * rewrite decide_True; [done|]. constructor; [apply fits_fieldnames|done].
      * rewrite decide_False; [done|]. by intros [_ ?]%Forall_cons.
    + intros Hfit. apply holds_records_written; [done|].
      constructor; [apply fits_fieldnames|done].
Qed.

(** *** One title, many titles *)

Variable fetch : str → option str.

Lemma main_title_skip st title :
  (∀ extract, fetch title = Some extract → truthy extract = false) →
  main_title a fetch st title = st.
Proof.
  unfold main_title. destruct (fetch title) as [extract|]; [|done].
  intros Hempty. by rewrite (Hempty extract).
Qed.

Lemma main_title_step st title extract :
  fetch title = Some extract → truthy extract = true →
  total_added st = length (all_new_rows st) →
  main_title a fetch st title
  = let new := take (Z.to_nat (max_paragraphs_per_article a))
                    (keep_all a title (split_into_section_paragraphs extract)
                              (existing_ids st)) in
    RunState (list_to_set (row_id <$> new) ∪ existing_ids st)
             (all_new_rows st ++ new) (total_added st + length new)
             (Some (base_text fieldnames (out_csv st)
                    ++ csv_text (row_cells fieldnames <$> new)))
             (stdout st ++ [(title, length new)]) None.
Proof.
  intros Hfetch Htext Htotal. unfold main_title.
  rewrite Hfetch, Htext. cbn [negb].
  rewrite keep_loop_rows. cbv zeta.
  rewrite Nat2Z.inj_0, Z.sub_0_r, Htotal, drop_app_length.
  rewrite append_rows_text; [done|].
  apply Forall_take. eapply Forall_impl; [apply keep_all_made|].
  apply made_row_keys.
Qed.

Lemma fetch_cases title :
  (∀ extract, fetch title = Some extract → truthy extract = false)
  ∨ has_text fetch title.
Proof.
  destruct (fetch title) as [extract|] eqn:Hfetch; [|by left].
  destruct (truthy extract) eqn:Htext.
  - right. by exists extract.
  - left. by intros ? [= <-].
Qed.

Lemma main_for_cons st title titles :
  raised (main_title a fetch st title) = None →
  main_for a fetch (title :: titles) st
  = main_for a fetch titles (main_title a fetch st title).
Proof. intros Hraised. cbn [main_for]. by rewrite Hraised. Qed.

Lemma stdout_bound titles st :
  0 ≤ max_paragraphs_per_article a →
  total_added st = length (all_new_rows st) → raised st = None →
  Forall (fun line => Z.of_nat line.2 ≤ max_paragraphs_per_article a) (stdout st) →
  Forall (fun line => Z.of_nat line.2 ≤ max_paragraphs_per_article a)
         (stdout (main_for a fetch titles st)).
Proof.
  intros Hcap. revert st.
  induction titles as [|title titles IH]; intros st Htotal Hraised Hout; [done|].
  destruct (fetch_cases title) as [Hskip|(extract & Hfetch & Htext)].
  - rewrite main_for_cons; rewrite main_title_skip by done; [|done]. by apply IH.
  - rewrite main_for_cons; rewrite (main_title_step st title extract) by done;
      [|done]. cbv zeta.
    apply IH; cbn [total_added all_new_rows stdout raised]; [|done|].
    + rewrite length_app. lia.
    + apply Forall_app. split; [done|]. constructor; [|done].
      cbn [snd]. rewrite length_take. lia.
Qed.

Lemma keep_all_fresh title ps ledger :
  NoDup (row_id <$> keep_all a title ps ledger)
  ∧ ∀ x, x ∈ row_id <$> keep_all a title ps ledger → x ∉ ledger.
Proof.
  revert ledger. induction ps as [|[[section para] para_idx] ps IH]; intros ledger.
  - split; [constructor|]. intros x Hx. by apply elem_of_nil in Hx.
  - cbn [keep_all]. destruct (_ <? _); [apply IH|].
    generalize (make_paragraph_id title section para_idx para). intros pid.
    generalize (make_row pid title section para_idx para)
               (row_id_make_row pid title section para_idx para).
    intros row Hrow.
    case_bool_decide as Hpid; [apply IH|].
    destruct (IH ({[pid]} ∪ ledger)) as [Hnodup Hfresh].
    rewrite fmap_cons, Hrow. split.
    + apply NoDup_cons. split; [|done]. intros Hin.
      apply (Hfresh pid Hin). apply elem_of_union. left. by apply elem_of_singleton.
    + intros x [->|Hx]%elem_of_cons; [done|].
      intros Hin. apply (Hfresh x Hx). apply elem_of_union. by right.
Qed.

Lemma keep_all_from title ps ledger :
  Forall (fun r => ∃ section para para_idx,
            (section, para, para_idx) ∈ ps
            ∧ min_chars a ≤ Z.of_nat (length para)
            ∧ r = make_row (make_paragraph_id title section para_idx para)
                           title section para_idx para)
         (keep_all a title ps ledger).
Proof.
  revert ledger. induction ps as [|[[section para] para_idx] ps IH]; intros ledger.
  - constructor.
  - assert (Hrest : ∀ ledger',
              Forall (fun r => ∃ section0 para0 para_idx0,
                        (section0, para0, para_idx0) ∈ (section, para, para_idx) :: ps
                        ∧ min_chars a ≤ Z.of_nat (length para0)
                        ∧ r = make_row (make_paragraph_id title section0 para_idx0 para0)
                                       title section0 para_idx0 para0)
                     (keep_all a title ps ledger')).
    { intros ledger'. eapply Forall_impl; [apply IH|].
      intros r (s & p & i & Hin & Hlen & ->). exists s, p, i.
      split; [by apply list_elem_of_further|done]. }
    cbn [keep_all].
    destruct (Z.ltb_spec (Z.of_nat (length para)) (min_chars a)); [apply Hrest|].
    case_bool_decide; [apply Hrest|].
    constructor; [|apply Hrest].
    exists section, para, para_idx. split; [apply list_elem_of_here|]. split; [lia|done].
Qed.

Lemma from_article_made titles r : from_article a fetch titles r → made_row r.
Proof.
  intros (title & extract & section & para & para_idx & _ & _ & _ & _ & ->).
  by exists title, section, para_idx, para.
Qed.

(** What a stretch of the loop over the titles does to the state. *)
Lemma run_trace titles st :
  total_added st = length (all_new_rows st) → raised st = None →
  ∃ new,
    all_new_rows (main_for a fetch titles st) = all_new_rows st ++ new
    ∧ total_added (main_for a fetch titles st) = (total_added st + length new)%nat
    ∧ raised (main_for a fetch titles st) = None
    ∧ (Forall (fun title => ¬ has_text fetch title) titles
       ∧ out_csv (main_for a fetch titles st) = out_csv st ∧ new = []
       ∨ Exists (has_text fetch) titles
         ∧ out_csv (main_for a fetch titles st)
           = Some (base_text fieldnames (out_csv st)
                   ++ csv_text (row_cells fieldnames <$> new)))
    ∧ existing_ids (main_for a fetch titles st)
      = list_to_set (row_id <$> new) ∪ existing_ids st
    ∧ NoDup (row_id <$> new)
    ∧ (∀ x, x ∈ row_id <$> new → x ∉ existing_ids st)
    ∧ Forall (from_article a fetch titles) new
    ∧ sum_list (snd <$> stdout (main_for a fetch titles st))
      = (sum_list (snd <$> stdout st) + length new)%nat.
Proof.
  revert st. induction titles as [|title titles IH]; intros st Htotal Hraised.
  { exists []. cbn [main_for length fmap list_fmap list_to_set].
    rewrite app_nil_r, !Nat.add_0_r, union_empty_l_L.
    repeat split; try done; [left; by repeat split|constructor|].
    intros x Hx. by apply elem_of_nil in Hx. }
  assert (Hmono : ∀ new, Forall (from_article a fetch titles) new
                         → Forall (from_article a fetch (title :: titles)) new).
  { intros new Hnew. eapply Forall_impl; [exact Hnew|].
    intros r (t & e & s & p & i & Hin & Hrest). exists t, e, s, p, i.
    split; [by apply list_elem_of_further|done]. }
  destruct (fetch_cases title) as [Hskip|(extract & Hfetch & Htext)].
  { rewrite main_for_cons; rewrite main_title_skip by done; [|done].
    destruct (IH st Htotal Hraised) as (new & H1 & H2 & H3 & H4 & H5 & H6 & H7 & H8 & H9).
    exists new. repeat split; try done; [|by apply Hmono].
    destruct H4 as [(Hnone & Hfile & Hnew)|[Hsome Hfile]].
    - left. split; [|done]. constructor; [|done].
      intros (e & He & Ht). by rewrite (Hskip e He) in Ht.
    - right. split; [by apply Exists_cons_tl|done]. }
  rewrite main_for_cons; rewrite (main_title_step st title extract) by done; [|done].
  cbv zeta.
  set (new1 := take (Z.to_nat (max_paragraphs_per_article a))
                 (keep_all a title (split_into_section_paragraphs extract)
                           (existing_ids st))).
  destruct (keep_all_fresh title (split_into_section_paragraphs extract)
              (existing_ids st)) as [Hnodup1 Hfresh1].
  assert (Hsub1 : row_id <$> new1
                  `sublist_of` row_id <$> keep_all a title
                     (split_into_section_paragraphs extract) (existing_ids st)).
  { unfold new1. rewrite fmap_take. apply sublist_take. }
  assert (Hfrom1 : Forall (from_article a fetch (title :: titles)) new1).
  { unfold new1. apply Forall_take.
    eapply Forall_impl; [apply keep_all_from|].
    intros r (s & p & i & Hin & Hlen & ->). exists title, extract, s, p, i.
    split; [apply list_elem_of_here|done]. }
  match goal with |- context [main_for _ _ titles ?s] => set (st1 := s) end.
  destruct (IH st1) as (new2 & H1 & H2 & H3 & H4 & H5 & H6 & H7 & H8 & H9).
  { unfold st1. cbn [total_added all_new_rows]. rewrite length_app. lia. }
  { done. }
  subst st1.
  cbn [all_new_rows total_added out_csv existing_ids stdout raised] in H1, H2, H4, H5, H7, H9.
  exists (new1 ++ new2).
  split; [by rewrite H1, <- app_assoc|].
  split; [rewrite H2, length_app; lia|].
  split; [done|].
  split.
  { right. split; [apply Exists_cons_hd; by exists extract|].
    destruct H4 as [(_ & -> & ->)|[_ ->]].
    - by rewrite app_nil_r.
    - cbn [base_text]. by rewrite fmap_app, csv_text_app, <- app_assoc. }
  split.
  { rewrite H5, fmap_app, list_to_set_app_L.
    apply set_eq. intros x. rewrite !elem_of_union. tauto. }
  split.
  { rewrite fmap_app. apply NoDup_app. split; [exact (sublist_NoDup _ _ Hnodup1 Hsub1)|].
    split; [|done]. intros x Hx1 Hx2. apply (H7 x Hx2).
    apply elem_of_union. left. by apply elem_of_list_to_set. }
  split.
  { intros x. rewrite fmap_app. intros [Hx|Hx]%elem_of_app.
    - apply Hfresh1. by eapply elem_of_sublist.
    - intros Hin. apply (H7 x Hx). apply elem_of_union. by right. }
  split; [apply Forall_app; split; [done|by apply Hmono]|].
  rewrite H9, fmap_app, sum_list_with_app, length_app. cbn. lia.
Qed.

(** A run over titles none of whose articles has anything left for the
    ledger writes nothing. *)
Lemma rerun_title ledger text out title :
  (∀ extract x, fetch title = Some extract →
                x ∈ ids_of a title (split_into_section_paragraphs extract) → x ∈ ledger) →
  ∃ out', main_title a fetch (RunState ledger [] 0 (Some text) out None) title
          = RunState ledger [] 0 (Some text) out' None
          ∧ (Forall (fun line => line.2 = 0%nat) out
             → Forall (fun line : str * nat => line.2 = 0%nat) out').
Proof.
  intros Hset.
  destruct (fetch_cases title) as [Hskip|(extract & Hfetch & Htext)].
  - exists out. by rewrite main_title_skip.
  - exists (out ++ [(title, 0%nat)]).
    rewrite (main_title_step _ title extract) by done. cbv zeta.
    cbn [existing_ids all_new_rows total_added out_csv stdout base_text].
    rewrite keep_all_settled by (intros x Hx; by apply (Hset extract)).
    rewrite take_nil. split.
    + cbn. rewrite app_nil_r. f_equal. apply (left_id_L ∅ (∪)).
    + intros Hout. apply Forall_app. split; [done|]. by constructor.
Qed.

Lemma rerun_fold titles ledger text out :
  nothing_left a fetch titles ledger →
  ∃ out', main_for a fetch titles (RunState ledger [] 0 (Some text) out None)
          = RunState ledger [] 0 (Some text) out' None
          ∧ (Forall (fun line => line.2 = 0%nat) out
             → Forall (fun line : str * nat => line.2 = 0%nat) out').
Proof.
  revert out. induction titles as [|title titles IH]; intros out Hset.
  - by exists out.
  - destruct (rerun_title ledger text out title) as (out1 & Hstep & Hout1).
    { intros extract x. apply Hset, list_elem_of_here. }
    rewrite main_for_cons; rewrite Hstep; [|done].
    destruct (IH out1) as (out' & -> & Hout').
    { intros t e x Ht. by apply Hset, list_elem_of_further. }
    exists out'. split; [done|]. intros Hout. by apply Hout', Hout1.
Qed.

Lemma main_for_no_text titles st :
  Forall (fun title => ¬ has_text fetch title) titles →
  raised st = None →
  main_for a fetch titles st = st.
Proof.
  intros Hnone Hraised. induction Hnone as [|title titles Hno _ IH]; [done|].
  assert (Hskip : main_title a fetch st title = st).
  { apply main_title_skip. intros extract Hfetch.
    destruct (truthy extract) eqn:Htext; [|done].
    destruct Hno. by exists extract. }
  rewrite main_for_cons; rewrite Hskip; done.
Qed.

(** A run that writes nothing, under a cap that lets a row through, found
    nothing left for the ledger. *)
Lemma zero_run_settled titles st :
  0 < max_paragraphs_per_article a →
  total_added st = length (all_new_rows st) → raised st = None →
  all_new_rows (main_for a fetch titles st) = all_new_rows st →
  nothing_left a fetch titles (existing_ids st).
Proof.
  intros Hcap. revert st.
  induction titles as [|title titles IH]; intros st Htotal Hraised Hrows.
  { intros title extract x Hin. by apply elem_of_nil in Hin. }
  destruct (fetch_cases title) as [Hskip|(extract & Hfetch & Htext)].
  { rewrite main_for_cons in Hrows; rewrite main_title_skip in * by done; [|done].
    intros t e x [->|Ht]%elem_of_cons; [|by apply (IH st)].
    intros He Hx. pose proof (Hskip e He) as Hempty.
    destruct e; [|done]. by apply elem_of_nil in Hx. }
  rewrite main_for_cons in Hrows;
    rewrite (main_title_step st title extract) in * by done; [|done].
  cbv zeta in Hrows.
  set (new1 := take (Z.to_nat (max_paragraphs_per_article a))
                 (keep_all a title (split_into_section_paragraphs extract)
                           (existing_ids st))) in *.
  match type of Hrows with context [main_for _ _ titles ?s] => set (st1 := s) in * end.
  destruct (run_trace titles st1) as (new2 & H1 & _).
  { unfold st1. cbn [total_added all_new_rows]. rewrite length_app. lia. }
  { done. }
  rewrite H1 in Hrows. unfold st1 in Hrows. cbn [all_new_rows] in Hrows.
  rewrite <- app_assoc in Hrows.
  rewrite <- (app_nil_r (all_new_rows st)) in Hrows at 2.
  apply app_inv_head, app_eq_nil in Hrows as [Hnew1 Hnew2].
  assert (Hall : keep_all a title (split_into_section_paragraphs extract)
                          (existing_ids st) = []).
  { unfold new1 in Hnew1.
    destruct (keep_all a title (split_into_section_paragraphs extract) (existing_ids st));
      [done|].
    replace (Z.to_nat (max_paragraphs_per_article a))
      with (S (Z.to_nat (max_paragraphs_per_article a - 1))) in Hnew1 by lia.
    done. }
  assert (Hst1 : st1 = RunState (existing_ids st) (all_new_rows st) (total_added st)
                         (Some (base_text fieldnames (out_csv st)))
                         (stdout st ++ [(title, 0%nat)]) None).
  { unfold st1. rewrite Hnew1. cbn [fmap list_fmap list_to_set length csv_text concat].
    by rewrite union_empty_l_L, !app_nil_r, Nat.add_0_r. }
  intros t e x [->|Ht]%elem_of_cons.
  - intros He Hx. replace e with extract in Hx by congruence.
    pose proof (keep_all_covers title _ (existing_ids st) x Hx) as Hcov.
    rewrite Hall in Hcov. cbn in Hcov. by rewrite union_empty_l_L in Hcov.
  - assert (Hrest : nothing_left a fetch titles (existing_ids st1)).
    { apply IH.
      - rewrite Hst1. by cbn.
      - by rewrite Hst1.
      - rewrite H1, Hnew2, app_nil_r. done. }
    rewrite Hst1 in Hrest. by apply Hrest.
Qed.

(** When no article has more paragraphs passing the length filter than the
    cap lets through, a run leaves nothing for the ledger. *)
Lemma run_settles titles st :
  (∀ title, title ∈ titles → within_cap a fetch title) →
  total_added st = length (all_new_rows st) → raised st = None →
  nothing_left a fetch titles (existing_ids (main_for a fetch titles st)).
Proof.
  revert st. induction titles as [|title titles IH]; intros st Hcap Htotal Hraised.
  { intros title extract x Hin. by apply elem_of_nil in Hin. }
  assert (Hgrow : ∀ st', total_added st' = length (all_new_rows st') → raised st' = None →
                         existing_ids st' ⊆ existing_ids (main_for a fetch titles st')).
  { intros st' Htotal' Hraised'.
    destruct (run_trace titles st' Htotal' Hraised') as (new & _ & _ & _ & _ & -> & _).
    apply union_subseteq_r. }
  destruct (fetch_cases title) as [Hskip|(extract & Hfetch & Htext)].
  { rewrite main_for_cons; rewrite main_title_skip by done; [|done].
    intros t e x [->|Ht]%elem_of_cons.
    - intros He Hx. pose proof (Hskip e He) as Hempty.
      destruct e; [|done]. by apply elem_of_nil in Hx.
    - apply IH; [|done|done|done]. intros t' Ht'. by apply Hcap, list_elem_of_further. }
  rewrite main_for_cons; rewrite (main_title_step st title extract) by done; [|done].
  cbv zeta.
  pose proof (Hcap title (list_elem_of_here _ _) extract Hfetch) as Hfew.
  pose proof (keep_all_length title (split_into_section_paragraphs extract)
                              (existing_ids st)) as Hlen.
  rewrite take_ge by lia.
  match goal with |- context [main_for _ _ titles ?s] => set (st1 := s) end.
  assert (Htotal1 : total_added st1 = length (all_new_rows st1)).
  { unfold st1. cbn [total_added all_new_rows]. rewrite length_app. lia. }
  intros t e x [->|Ht]%elem_of_cons.
  - intros He Hx. replace e with extract in Hx by congruence.
    apply (Hgrow st1 Htotal1 eq_refl). unfold st1. cbn [existing_ids].
    by apply keep_all_covers.
  - apply IH; [|done|done|done]. intros t' Ht'. by apply Hcap, list_elem_of_further.
Qed.

(** A pass that wrote fewer rows than the cap allows was not stopped by
    it: when every line of a stretch of the loop shows fewer rows than the
    cap, the stretch leaves nothing for the ledger. *)
Lemma below_cap_settles titles st :
  total_added st = length (all_new_rows st) → raised st = None →
  ∃ lines,
    stdout (main_for a fetch titles st) = stdout st ++ lines
    ∧ (Forall (fun line : str * nat => Z.of_nat line.2 < max_paragraphs_per_article a)
              lines
       → nothing_left a fetch titles (existing_ids (main_for a fetch titles st))).
Proof.
  revert st. induction titles as [|title titles IH]; intros st Htotal Hraised.
  { exists []. split; [by rewrite app_nil_r|].
    intros _ title extract x Hin. by apply elem_of_nil in Hin. }
  assert (Hgrow : ∀ st', total_added st' = length (all_new_rows st') → raised st' = None →
                         existing_ids st' ⊆ existing_ids (main_for a fetch titles st')).
  { intros st' Htotal' Hraised'.
    destruct (run_trace titles st' Htotal' Hraised') as (new & _ & _ & _ & _ & -> & _).
    apply union_subseteq_r. }
  destruct (fetch_cases title) as [Hskip|(extract & Hfetch & Htext)].
  { rewrite main_for_cons; rewrite main_title_skip by done; [|done].
    destruct (IH st Htotal Hraised) as (lines & Hout & Hleft).
    exists lines. split; [done|]. intros Hlines t e x [->|Ht]%elem_of_cons.
    - intros He Hx. pose proof (Hskip e He) as Hempty.
      destruct e; [|done]. by apply elem_of_nil in Hx.
    - by apply Hleft. }
  rewrite main_for_cons; rewrite (main_title_step st title extract) by done; [|done].
  cbv zeta.
  set (new1 := take (Z.to_nat (max_paragraphs_per_article a))
                 (keep_all a title (split_into_section_paragraphs extract)
                           (existing_ids st))).
  match goal with |- context [main_for _ _ titles ?s] => set (st1 := s) end.
  assert (Htotal1 : total_added st1 = length (all_new_rows st1)).
  { unfold st1. cbn [total_added all_new_rows]. rewrite length_app. lia. }
  destruct (IH st1 Htotal1 eq_refl) as (lines & Hout & Hleft).
  exists ((title, length new1) :: lines). split.
  { rewrite Hout. unfold st1. cbn [stdout]. by rewrite <- app_assoc. }
  intros [Hfew Hlines]%Forall_cons t e x [->|Ht]%elem_of_cons; [|by apply Hleft].
  intros He Hx. replace e with extract in Hx by congruence.
  apply (Hgrow st1 Htotal1 eq_refl). unfold st1. cbn [existing_ids].
  cbn [snd] in Hfew. unfold new1 in Hfew |- *. rewrite length_take in Hfew.
  rewrite take_ge by lia. by apply keep_all_covers.
Qed.

Lemma keep_all_title (title : str) ps ledger :
  Forall (fun r => r !! py "title" = Some title) (keep_all a title ps ledger).
Proof.
  revert ledger. induction ps as [|[[section para] para_idx] ps IH]; intros ledger.
  - constructor.
  - cbn [keep_all]. destruct (_ <? _); [apply IH|].
    case_bool_decide; [apply IH|]. by constructor.
Qed.

Lemma rows_of_article_pass (title title' : str) (rows : list (gmap str str)) :
  Forall (fun r => r !! py "title" = Some title') rows →
  (length (rows_of_article title rows)
   ≤ if decide (title' = title) then length rows else 0)%nat.
Proof.
  intros Hrows. unfold rows_of_article.
  induction Hrows as [|r rows Hr _ IH]; [by destruct (decide _)|].
  rewrite filter_cons. destruct (decide (title' = title)) as [->|Hne].
  - rewrite decide_True by done. cbn [length]. lia.
  - rewrite decide_False; [done|]. rewrite Hr. by intros [= ?].
Qed.

(** The rows a stretch of the loop adds for one article: at most the cap
    for every time its title is listed. *)
Lemma rows_per_article (titles : list str) (st : run_state) (title : str) :
  0 ≤ max_paragraphs_per_article a →
  total_added st = length (all_new_rows st) → raised st = None →
  Z.of_nat (length (rows_of_article title (all_new_rows (main_for a fetch titles st))))
  ≤ Z.of_nat (length (rows_of_article title (all_new_rows st)))
    + Z.of_nat (length (filter (fun t => t = title) titles))
      * max_paragraphs_per_article a.
Proof.
  intros Hcap. revert st.
  induction titles as [|title' titles IH]; intros st Htotal Hraised.
  { cbn. lia. }
  assert (Hcount : Z.of_nat (length (filter (fun t => t = title) titles))
                   ≤ Z.of_nat (length (filter (fun t => t = title) (title' :: titles)))).
  { rewrite filter_cons. destruct (decide (title' = title)); cbn [length]; lia. }
  destruct (fetch_cases title') as [Hskip|(extract & Hfetch & Htext)].
  { rewrite main_for_cons; rewrite main_title_skip by done; [|done].
    specialize (IH st Htotal Hraised). nia. }
  rewrite main_for_cons; rewrite (main_title_step st title' extract) by done; [|done].
  cbv zeta.
  set (new1 := take (Z.to_nat (max_paragraphs_per_article a))
                 (keep_all a title' (split_into_section_paragraphs extract)
                           (existing_ids st))).
  match goal with |- context [main_for _ _ titles ?s] => set (st1 := s) end.
  assert (Htotal1 : total_added st1 = length (all_new_rows st1)).
  { unfold st1. cbn [total_added all_new_rows]. rewrite length_app. lia. }
  specialize (IH st1 Htotal1 eq_refl).
  assert (Hpass : (length (rows_of_article title new1)
                   ≤ if decide (title' = title) then length new1 else 0)%nat).
  { apply rows_of_article_pass. unfold new1. apply Forall_take, keep_all_title. }
  assert (Hlen : Z.of_nat (length new1) ≤ max_paragraphs_per_article a).
  { unfold new1. rewrite length_take. lia. }
  unfold st1 in IH at 2. cbn [all_new_rows] in IH.
  unfold rows_of_article in IH at 2. rewrite filter_app, length_app in IH.
  fold (rows_of_article title (all_new_rows st)) in IH.
  fold (rows_of_article title new1) in IH.
  rewrite filter_cons. destruct (decide (title' = title)) as [Heq|Hne];
    cbn [length]; nia.
Qed.

Lemma text_cases titles :
  Forall (fun title => ¬ has_text fetch title) titles
  ∨ Exists (has_text fetch) titles.
Proof.
  induction titles as [|title titles [IH|IH]]; [by left| |].
  - destruct (fetch_cases title) as [Hskip|Htext].
    + left. constructor; [|done]. intros (e & He & Ht). by rewrite (Hskip e He) in Ht.
    + right. by apply Exists_cons_hd.
  - right. by apply Exists_cons_tl.
Qed.

(** The table a run leaves and the ledger it ends with, against what the
    next run reads: the next run's reader accepts the table exactly when
    every cell written is within the field size limit, and then the ledger
    it loads is the one this run ended with. *)
Lemma run_leaves_table titles file csv_path :
  table_ok file → read_csv file = Some csv_path →
  let st := main_for a fetch titles
              (RunState (load_existing_ids csv_path) [] 0 file [] None) in
  raised st = None
  ∧ total_added st = length (all_new_rows st)
  ∧ (Exists (has_text fetch) titles → is_Some (out_csv st))
  ∧ load_existing_ids csv_path ⊆ existing_ids st
  ∧ ∃ csv_path',
      read_csv (out_csv st)
      = (if decide (Forall fits (row_cells fieldnames <$> all_new_rows st))
         then Some csv_path' else None)
      ∧ load_existing_ids csv_path' = existing_ids st
      ∧ (Forall fits (row_cells fieldnames <$> all_new_rows st) → table_ok (out_csv st)).
Proof.
  intros Htable Hread st.
  destruct (run_trace titles (RunState (load_existing_ids csv_path) [] 0 file [] None))
    as (new & H1 & H2 & H3 & H4 & H5 & _ & _ & H8 & _); [done|done|].
  fold st in H1, H2, H3, H4, H5.
  cbn [all_new_rows total_added out_csv existing_ids app] in H1, H2, H4, H5.
  destruct (read_table_ok file Htable) as (csv_path' & Hread' & Hhead & Hnone & Hholds).
  assert (csv_path' = csv_path) as -> by congruence.
  assert (Hmade : Forall made_row new).
  { eapply Forall_impl; [exact H8|]. apply from_article_made. }
  split; [done|]. split; [by rewrite H1, H2|].
  split.
  { intros Hsome. destruct H4 as [(Hno & _ & _)|[_ ->]]; [|done].
    by apply Forall_Exists_neg in Hno. }
  split; [rewrite H5; apply union_subseteq_r|].
  rewrite H1, H5.
  destruct H4 as [(_ & -> & ->)|[_ ->]].
  - exists csv_path. rewrite decide_True by constructor.
    split; [done|]. split; [|done].
    cbn. by rewrite union_empty_l_L.
  - exists (Some (default [fieldnames] csv_path ++ (row_cells fieldnames <$> new))).
    destruct (read_extended file csv_path (row_cells fieldnames <$> new) Htable Hread)
      as [-> Hholds'].
    split; [done|]. split; [by apply load_extended|].
    intros Hfit. right.
    destruct Hhead as [->|(header & data & -> & Hheader)].
    + exists (base_text fieldnames file ++ csv_text (row_cells fieldnames <$> new)),
             fieldnames, (row_cells fieldnames <$> new).
      split; [done|]. split; [by apply Hholds'|apply id_first_fieldnames].
    + exists (base_text fieldnames file ++ csv_text (row_cells fieldnames <$> new)),
             header, (data ++ (row_cells fieldnames <$> new)).
      split; [done|]. split; [by apply Hholds'|done].
Qed.

(** A run from a ledger that leaves nothing to add writes no row and
    leaves the table as it is. *)
Lemma rerun_zero titles table ledger :
  (Exists (has_text fetch) titles → is_Some table) →
  nothing_left a fetch titles ledger →
  ∃ out', main_for a fetch titles (RunState ledger [] 0 table [] None)
          = RunState ledger [] 0 table out' None
          ∧ Forall (fun line : str * nat => line.2 = 0%nat) out'.
Proof.
  intros Hsome Hleft. destruct (text_cases titles) as [Hno|Hyes].
  - exists []. split; [by apply main_for_no_text|constructor].
  - destruct (Hsome Hyes) as [text ->].
    destruct (rerun_fold titles ledger text [] Hleft) as (out' & -> & Hout).
    exists out'. split; [done|]. by apply Hout.
Qed.

End driver.

(** C8, as the code has it. With a cap that is not negative, every pass of
    the driver over an article has at most that many records accepted and
    written, however many paragraphs pass the length filter. The records
    accepted in a pass are the first ones, in segmentation order, among the
    paragraphs that pass the length filter and are not in the ledger: only
    kept paragraphs count towards the cap. Over the whole run an article
    gets at most the cap times the number of times its title is listed, so
    at most the cap when its title is listed once. *)
Theorem cap_enforcement (a : args) (fetch : str → option str) (titles : list str)
    (file : option str) (st : run_state) :
  0 ≤ max_paragraphs_per_article a →
  main a fetch titles file = Some st →
  Forall (fun line => Z.of_nat line.2 ≤ max_paragraphs_per_article a) (stdout st)
  ∧ (∀ title ps ledger rows,
       (keep_loop a title ps 0 ledger rows).2
       = rows ++ take (Z.to_nat (max_paragraphs_per_article a))
                      (keep_all a title ps ledger))
  ∧ ∀ title,
      Z.of_nat (length (rows_of_article title (all_new_rows st)))
      ≤ Z.of_nat (length (filter (fun t => t = title) titles))
        * max_paragraphs_per_article a.
Proof.
  intros Hcap Hmain.
  unfold main in Hmain. case_bool_decide; [done|]. injection Hmain as <-.
  split; [|split].
  - unfold main_loop. destruct (read_csv file) as [csv_path|]; [|constructor].
    by apply stdout_bound.
  - intros title ps ledger rows. rewrite keep_loop_rows. cbv zeta.
    by rewrite Nat2Z.inj_0, Z.sub_0_r.
  - intros title. unfold main_loop. destruct (read_csv file) as [csv_path|].
    + pose proof (rows_per_article a fetch titles
                    (RunState (load_existing_ids csv_path) [] 0 file [] None)
                    title Hcap eq_refl eq_refl) as Hrows.
      cbn [all_new_rows] in Hrows.
      change (rows_of_article title []) with (@nil (gmap str str)) in Hrows.
      cbn [length] in Hrows. lia.
    + cbn. nia.
Qed.

Lemma cap_enforcement_witness :
  Forall (fun line => Z.of_nat line.2 ≤ 2)
         (stdout (main_loop (Args 1 2) three_paragraphs [py "T"] None))
  ∧ (∀ title ps ledger rows,
       (keep_loop (Args 1 2) title ps 0 ledger rows).2
       = rows ++ take 2 (keep_all (Args 1 2) title ps ledger))
  ∧ ∀ title,
      Z.of_nat (length (rows_of_article title
                          (all_new_rows
                             (main_loop (Args 1 2) three_paragraphs [py "T"] None))))
      ≤ Z.of_nat (length (filter (fun t => t = title) [py "T"])) * 2.
Proof.
  apply (cap_enforcement (Args 1 2) three_paragraphs [py "T"] None).
  - cbn. lia.
  - reflexivity.
Defined.

(** C8 as stated fails for an article that the driver passes over twice
    and for a negative cap. With a cap of one and the title listed twice,
    each pass accepts one record, the second pass skipping the paragraph of
    the first without counting it, so the article gets two records. With a
    cap of minus one nothing is accepted, and zero is not at most minus
    one. *)
Lemma cap_counterexample :
  main (Args 1 1) three_paragraphs [py "T"; py "T"] None
  = Some (main_loop (Args 1 1) three_paragraphs [py "T"; py "T"] None)
  ∧ stdout (main_loop (Args 1 1) three_paragraphs [py "T"; py "T"] None)
    = [(py "T", 1%nat); (py "T", 1%nat)]
  ∧ length (rows_of_article (py "T")
              (all_new_rows (main_loop (Args 1 1) three_paragraphs [py "T"; py "T"] None)))
    = 2%nat
  ∧ ¬ (Z.of_nat
         (length (rows_of_article (py "T")
                    (all_new_rows
                       (main_loop (Args 1 1) three_paragraphs [py "T"; py "T"] None))))
       ≤ max_paragraphs_per_article (Args 1 1))
  ∧ ¬ (Z.of_nat
         (length (rows_of_article (py "T")
                    (all_new_rows
                       (main_loop (Args 1 (-1)) three_paragraphs [py "T"] None))))
       ≤ max_paragraphs_per_article (Args 1 (-1))).
Proof.
  assert (Hrows : length (rows_of_article (py "T")
                    (all_new_rows
                       (main_loop (Args 1 1) three_paragraphs [py "T"; py "T"] None)))
                  = 2%nat) by (vm_compute; reflexivity).
  split; [unfold main; by rewrite bool_decide_eq_false_2|].
  split; [vm_compute; reflexivity|].
  split; [exact Hrows|].
  split.
  - rewrite Hrows. cbn. lia.
  - cbn [max_paragraphs_per_article]. lia.
Qed.

(** C1, as the code has it. Take a first run that starts from an absent
    table, or from a text of complete records whose header has [id] as its
    first column and only there, and a second run over the same texts and
    titles against the table the first run left. The first run ends without
    an exception, and the second one does exactly when every cell the first
    run wrote is within the field size limit of the reader. If the first
    run left no paragraph that passes the length filter outside its ledger,
    the second run writes no row and leaves the table as it is, and every
    identifier it can generate is in the ledger loaded from that table.
    Under a cap that lets a row through, a second run that ends without an
    exception writes no row only in this case. The first run leaves nothing
    outside its ledger whenever no article has more paragraphs passing the
    length filter than the cap lets through, and whenever each of its passes
    wrote fewer rows than the cap. *)
Theorem rerun_adds_nothing (a : args) (fetch : str → option str) (titles : list str)
    (file : option str) (st1 st2 : run_state) :
  table_ok file →
  main a fetch titles file = Some st1 →
  main a fetch titles (out_csv st1) = Some st2 →
  raised st1 = None
  ∧ (raised st2 = None
     ↔ Forall fits (row_cells fieldnames <$> all_new_rows st1))
  ∧ (nothing_left a fetch titles (existing_ids st1) →
     total_added st2 = 0%nat
     ∧ all_new_rows st2 = []
     ∧ out_csv st2 = out_csv st1
     ∧ Forall (fun line => line.2 = 0%nat) (stdout st2)
     ∧ ∀ csv_path, read_csv (out_csv st1) = Some csv_path →
         nothing_left a fetch titles (load_existing_ids csv_path))
  ∧ (0 < max_paragraphs_per_article a → raised st2 = None →
     total_added st2 = 0%nat →
     nothing_left a fetch titles (existing_ids st1))
  ∧ ((∀ title, title ∈ titles → within_cap a fetch title)
     ∨ Forall (fun line => Z.of_nat line.2 < max_paragraphs_per_article a) (stdout st1)
     → nothing_left a fetch titles (existing_ids st1)).
Proof.
  intros Htable Hrun1 Hrun2. unfold main in Hrun1, Hrun2.
  case_bool_decide; [done|].
  injection Hrun1 as <-. injection Hrun2 as <-.
  destruct (read_table_ok file Htable) as (csv_path & Hread & _).
  destruct (run_leaves_table a fetch titles file csv_path Htable Hread)
    as (Hraised & Htotal & Hsome & _ & csv_path' & Hread' & Hload & _).
  assert (Hst1 : main_loop a fetch titles file
                 = main_for a fetch titles
                     (RunState (load_existing_ids csv_path) [] 0 file [] None)).
  { unfold main_loop. by rewrite Hread. }
  rewrite Hst1. clear Hst1.
  set (st1 := main_for a fetch titles
                (RunState (load_existing_ids csv_path) [] 0 file [] None)) in *.
  split; [done|].
  assert (Hcut : (∀ title, title ∈ titles → within_cap a fetch title)
                 ∨ Forall (fun line => Z.of_nat line.2 < max_paragraphs_per_article a)
                          (stdout st1)
                 → nothing_left a fetch titles (existing_ids st1)).
  { intros [Hcap|Hfew]; [by apply run_settles|].
    destruct (below_cap_settles a fetch titles
                (RunState (load_existing_ids csv_path) [] 0 file [] None))
      as (lines & Hout & Hleft); [done|done|].
    apply Hleft. fold st1 in Hout. cbn [stdout app] in Hout. by rewrite <- Hout. }
  unfold main_loop. rewrite Hread'.
  destruct (decide (Forall fits (row_cells fieldnames <$> all_new_rows st1)))
    as [Hfit|Hfit].
  - rewrite Hload.
    destruct (run_trace a fetch titles
                (RunState (existing_ids st1) [] 0 (out_csv st1) [] None))
      as (new2 & Hrows2 & Htotal2 & Hraised2 & _); [done|done|].
    cbn [all_new_rows total_added app] in Hrows2, Htotal2.
    split; [done|]. split.
    + intros Hleft.
      destruct (rerun_zero a fetch titles (out_csv st1) (existing_ids st1) Hsome Hleft)
        as (out' & -> & Hout).
      cbn [total_added all_new_rows out_csv stdout].
      split; [done|]. split; [done|]. split; [done|]. split; [done|].
      intros csv_path0 [= <-]. by rewrite Hload.
    + split; [|done]. intros Hcap _ Hzero.
      apply (zero_run_settled a fetch titles
               (RunState (existing_ids st1) [] 0 (out_csv st1) [] None));
        [done|done|done|].
      rewrite Hrows2. cbn [all_new_rows].
      rewrite Htotal2 in Hzero. by destruct new2.
  - cbn [raised total_added all_new_rows out_csv stdout].
    split; [done|]. split; [|split; [done|done]].
    intros _. split; [done|]. split; [done|]. split; [done|]. split; [constructor|].
    intros csv_path0 [=].
Qed.

(** A table that two runs under a cap of two have written, the first of
    which the cap cut short: the third run finds nothing left and writes
    nothing. *)
Lemma rerun_adds_nothing_witness :
  total_added
    (main_loop (Args 1 2) three_paragraphs [py "T"]
       (out_csv (main_loop (Args 1 2) three_paragraphs [py "T"]
                   (out_csv (main_loop (Args 1 2) three_paragraphs [py "T"] None)))))
  = 0%nat.
Proof.
  assert (Htable : table_ok
            (out_csv (main_loop (Args 1 2) three_paragraphs [py "T"] None))).
  { destruct (run_leaves_table (Args 1 2) three_paragraphs [py "T"] None None)
      as (_ & _ & _ & _ & csv_path' & _ & _ & Hok); [by left|done|].
    apply Hok. apply (bool_decide_unpack _). vm_compute. exact I. }
  destruct (rerun_adds_nothing (Args 1 2) three_paragraphs [py "T"]
              (out_csv (main_loop (Args 1 2) three_paragraphs [py "T"] None))
              _ _ Htable eq_refl eq_refl) as (_ & _ & Hzero & _ & Hleft).
  apply Hzero, Hleft. right.
  apply (bool_decide_unpack _). vm_compute. exact I.
Defined.

(** On the way to the table of the witness: the first run writes two rows,
    the second one, the third none. *)
Example steady_state_runs :
  let run1 := main_loop (Args 1 2) three_paragraphs [py "T"] None in
  let run2 := main_loop (Args 1 2) three_paragraphs [py "T"] (out_csv run1) in
  let run3 := main_loop (Args 1 2) three_paragraphs [py "T"] (out_csv run2) in
  (total_added run1, total_added run2, total_added run3) = (2, 1, 0)%nat.
Proof. vm_compute. reflexivity. Qed.

(** C1 as stated fails when the cap cut the first run short: with a cap of
    one and an article of three paragraphs, the first run writes the first
    paragraph, and the second run passes over it without counting it and
    writes the second. *)
Lemma rerun_counterexample :
  main (Args 1 1) three_paragraphs [py "T"] None = Some capped_first_run
  ∧ main (Args 1 1) three_paragraphs [py "T"] (out_csv capped_first_run)
    = Some capped_second_run
  ∧ total_added capped_first_run = 1%nat
  ∧ total_added capped_second_run = 1%nat
  ∧ ¬ (∀ st1 st2,
         main (Args 1 1) three_paragraphs [py "T"] None = Some st1 →
         main (Args 1 1) three_paragraphs [py "T"] (out_csv st1) = Some st2 →
         total_added st2 = 0%nat).
Proof.
  assert (Hrun : ∀ file, main (Args 1 1) three_paragraphs [py "T"] file
                         = Some (main_loop (Args 1 1) three_paragraphs [py "T"] file)).
  { intros file. unfold main. by rewrite bool_decide_eq_false_2. }
  assert (Hrun1 : main (Args 1 1) three_paragraphs [py "T"] None
                  = Some capped_first_run) by apply Hrun.
  assert (Hrun2 : main (Args 1 1) three_paragraphs [py "T"] (out_csv capped_first_run)
                  = Some capped_second_run) by apply Hrun.
  assert (Hadded : total_added capped_second_run = 1%nat) by (vm_compute; reflexivity).
  split; [exact Hrun1|]. split; [exact Hrun2|].
  split; [vm_compute; reflexivity|]. split; [exact Hadded|].
  intros Hzero. specialize (Hzero _ _ Hrun1 Hrun2).
  rewrite Hadded in Hzero. discriminate.
Qed.

(** Why the first run has to start from a table with its header: appended
    to a file that exists but is empty, the rows go in without a header, the
    next run reads the first row as field names, finds no [id] column, and
    writes all three paragraphs again. *)
Example rerun_headerless_table :
  total_added
    (main_loop (Args 1 3) three_paragraphs [py "T"]
       (out_csv (main_loop (Args 1 3) three_paragraphs [py "T"] (Some []))))
  = 3%nat.
Proof. vm_compute. reflexivity. Qed.

(** Why the text of the table has to end with a line break: written after a
    header line that no line break ends, the first row runs on from the
    header, the next run reads that long record as field names and the
    other two rows under it, misses the first identifier, and writes the
    first paragraph again. *)
Example rerun_unterminated_table :
  total_added
    (main_loop (Args 1 3) three_paragraphs [py "T"]
       (out_csv (main_loop (Args 1 3) three_paragraphs [py "T"]
                   (Some (join [delimiter] fieldnames)))))
  = 1%nat.
Proof. vm_compute. reflexivity. Qed.

(** * Further properties *)

(** ** Trimming *)

Section trimming.

Lemma lstrip_decomp s :
  ∃ l, s = l ++ lstrip s ∧ Forall (fun c => is_space c = true) l.
Proof.
  induction s as [|c s (l & Hs & Hl)]; [by exists []|]. cbn.
  destruct (is_space c) eqn:Hc.
  - exists (c :: l). split; [by rewrite Hs at 1|by constructor].
  - by exists [].
Qed.

Lemma rstrip_decomp s :
  ∃ r, s = rstrip s ++ r ∧ Forall (fun c => is_space c = true) r.
Proof.
  unfold rstrip. destruct (lstrip_decomp (rev s)) as (l & Hs & Hl).
  exists (rev l). split.
  - rewrite <- rev_app_distr, <- Hs. by rewrite rev_involutive.
  - apply Forall_forall. intros c Hc. rewrite Forall_forall in Hl.
    apply Hl. by apply list_elem_of_In, in_rev, list_elem_of_In.
Qed.

Lemma strip_decomp s :
  ∃ l r, s = l ++ strip s ++ r
         ∧ Forall (fun c => is_space c = true) l
         ∧ Forall (fun c => is_space c = true) r.
Proof.
  destruct (lstrip_decomp s) as (l & Hs & Hl).
  destruct (rstrip_decomp (lstrip s)) as (r & Hr & Hr').
  exists l, r. unfold strip. by rewrite <- Hr.
Qed.

Lemma strip_first b c t : strip b = c :: t → is_space c = false.
Proof.
  unfold strip. intros Hb.
  destruct (rstrip_decomp (lstrip b)) as (r & Hr & _).
  rewrite Hb in Hr. by apply lstrip_head in Hr.
Qed.

Lemma strip_idem s : strip (strip s) = strip s.
Proof.
  destruct (strip s) as [|c t] eqn:Hs; [done|].
  destruct (last (c :: t)) as [d|] eqn:Hlast.
  - apply (strip_keep _ c d); [done|done|by eapply strip_first|].
    apply last_Some in Hlast as [t' Ht']. rewrite Ht' in Hs.
    by eapply strip_last.
  - by apply last_None in Hlast.
Qed.

Lemma strip_all_space s :
  Forall (fun c => is_space c = true) s → strip s = [].
Proof.
  intros Hs. destruct (strip s) as [|c t] eqn:Hstrip; [done|].
  destruct (strip_decomp s) as (l & r & Heq & _ & _).
  pose proof (strip_first s c t Hstrip) as Hc.
  rewrite Hstrip in Heq. rewrite Heq, !Forall_app, Forall_cons in Hs.
  destruct Hs as (_ & [Hc' _] & _). congruence.
Qed.

Lemma strip_sublist s : strip s `sublist_of` s.
Proof.
  destruct (strip_decomp s) as (l & r & Heq & _ & _).
  rewrite Heq at 2. apply sublist_inserts_l, sublist_inserts_r. done.
Qed.

Lemma Forall_strip (P : char → Prop) s : Forall P s → Forall P (strip s).
Proof.
  destruct (strip_decomp s) as (l & r & Heq & _ & _).
  rewrite Heq at 1. rewrite !Forall_app. tauto.
Qed.

End trimming.

(** ** More on the segmenter *)

Section segmenter_more.

Lemma seg_wf_step st b : seg_wf st → seg_wf (segment_block st b).
Proof.
  intros (Hne & Htrim & Hrows). unfold segment_block.
  destruct (strip b) as [|c t] eqn:Hb; [done|]. cbn [truthy negb].
  destruct (re_match HEADING_RE (c :: t)) as [m|] eqn:Hm.
  - destruct (strip (group m 2)) as [|c' t'] eqn:Hname; cbn [truthy]; [done|].
    repeat split; try done. cbn [current_section].
    rewrite <- Hname. apply strip_idem.
  - repeat split; try done. cbn [rows]. apply Forall_app. split; [done|].
    constructor; [|done]. unfold well_formed_row. cbn [text_of section_of fst snd].
    repeat split; try done. rewrite <- Hb. apply strip_idem.
Qed.

Lemma seg_wf_fold blocks st :
  seg_wf st → seg_wf (fold_left segment_block blocks st).
Proof.
  revert st. induction blocks as [|b blocks IH]; intros st Hwf; [done|].
  cbn. by apply IH, seg_wf_step.
Qed.

Lemma seg_wf_init : seg_wf seg_init.
Proof. repeat split; done. Qed.

Lemma NoDup_row_keys (rs : list para_row) :
  (∀ s, NoDup (indices_in s rs)) → NoDup (row_key <$> rs).
Proof.
  induction rs as [|r rs IH]; intros Hnodup; [constructor|].
  rewrite fmap_cons. apply NoDup_cons. split.
  - intros Hin. apply list_elem_of_fmap in Hin as (r' & Hkey & Hr').
    injection Hkey as Hsec Hidx.
    specialize (Hnodup (section_of r)).
    change (r :: rs) with ([r] ++ rs) in Hnodup.
    rewrite indices_in_app, indices_in_single, decide_True in Hnodup by done.
    apply NoDup_cons in Hnodup as [Hnotin _]. apply Hnotin.
    unfold indices_in. rewrite Hidx. apply list_elem_of_fmap_2.
    by apply list_elem_of_filter.
  - apply IH. intros s. specialize (Hnodup s).
    change (r :: rs) with ([r] ++ rs) in Hnodup.
    rewrite indices_in_app in Hnodup. by apply NoDup_app in Hnodup as (_ & _ & ?).
Qed.

Lemma split_scan_sublist r pos skip piece s :
  ∃ t, concat (split_scan r pos skip piece s) = rev piece ++ t ∧ t `sublist_of` s.
Proof.
  revert pos skip piece.
  induction s as [|c s IH]; intros pos skip piece.
  - exists []. cbn. by rewrite !app_nil_r.
  - cbn [split_scan]. destruct skip as [|k].
    + assert (Hkeep : ∃ t, concat (split_scan r (S pos) 0 (c :: piece) s)
                           = rev piece ++ t ∧ t `sublist_of` c :: s).
      { destruct (IH (S pos) 0%nat (c :: piece)) as (t & Ht & Hsub).
        exists (c :: t). split; [|by constructor].
        rewrite Ht. cbn [rev]. by rewrite <- app_assoc. }
      destruct (exec r pos (c :: s) ∅) as [[e gs]|]; [|done].
      destruct (pos <? e)%nat; [|done].
      destruct (IH (S pos) (e - pos - 1)%nat []) as (t & Ht & Hsub).
      exists t. split; [|by apply sublist_cons_r; left].
      cbn [concat]. by rewrite Ht.
    + destruct (IH (S pos) k piece) as (t & Ht & Hsub).
      exists t. split; [done|]. by apply sublist_cons_r; left.
Qed.

Lemma concat_sublist (l1 l2 : list str) :
  l1 `sublist_of` l2 → concat l1 `sublist_of` concat l2.
Proof.
  induction 1 as [|x l1 l2 _ IH|x l1 l2 _ IH]; cbn [concat]; [done| |].
  - by apply sublist_app.
  - by apply sublist_inserts_l.
Qed.

Lemma concat_strip_sublist (l : list str) :
  concat (strip <$> l) `sublist_of` concat l.
Proof.
  induction l as [|x l IH]; [done|]. rewrite fmap_cons. cbn [concat].
  apply sublist_app; [apply strip_sublist|done].
Qed.

Lemma segment_block_texts st b :
  ∃ new, text_of <$> rows (segment_block st b) = (text_of <$> rows st) ++ new
         ∧ new `sublist_of` [strip b].
Proof.
  unfold segment_block.
  destruct (negb (truthy (strip b))).
  { exists []. split; [by rewrite app_nil_r|apply sublist_nil_l]. }
  destruct (re_match HEADING_RE (strip b)).
  { exists []. split; [by rewrite app_nil_r|apply sublist_nil_l]. }
  exists [strip b]. split; [|done]. cbn [rows]. by rewrite fmap_app.
Qed.

Lemma segment_fold_texts blocks st :
  ∃ new, text_of <$> rows (fold_left segment_block blocks st)
         = (text_of <$> rows st) ++ new
         ∧ new `sublist_of` (strip <$> blocks).
Proof.
  revert st. induction blocks as [|b blocks IH]; intros st.
  { exists []. split; [by rewrite app_nil_r|done]. }
  cbn [fold_left].
  destruct (IH (segment_block st b)) as (new2 & Hrows2 & Hsub2).
  destruct (segment_block_texts st b) as (new1 & Hrows1 & Hsub1).
  exists (new1 ++ new2). split.
  - by rewrite Hrows2, Hrows1, <- app_assoc.
  - rewrite fmap_cons. by apply (sublist_app new1 [strip b] new2).
Qed.

End segmenter_more.

(** X1. A text of white space only, the empty text included, has no
    paragraph. *)
Theorem blank_text_no_rows (extract_text : str) :
  Forall (fun c => is_space c = true) extract_text →
  split_into_section_paragraphs extract_text = [].
Proof.
  intros Hblank. unfold split_into_section_paragraphs.
  destruct (negb (truthy extract_text)); [done|].
  by rewrite (strip_all_space extract_text).
Qed.

Lemma blank_text_no_rows_witness :
  split_into_section_paragraphs (py (" " ++ nl ++ nl ++ "  ")) = [].
Proof.
  apply blank_text_no_rows. repeat constructor.
Defined.

(** X2. Every row the segmenter emits has a text that is not empty, has no
    white space at either end and does not match the heading pattern, and a
    section name that is not empty and has no white space at either end. *)
Theorem rows_well_formed (extract_text : str) :
  Forall well_formed_row (split_into_section_paragraphs extract_text).
Proof.
  unfold split_into_section_paragraphs.
  destruct (negb (truthy extract_text)); [constructor|].
  apply seg_wf_fold, seg_wf_init.
Qed.

(** X3. Inside one article no two rows share their section name and
    local index. *)
Theorem row_keys_distinct (extract_text : str) :
  NoDup (row_key <$> split_into_section_paragraphs extract_text).
Proof.
  apply NoDup_row_keys. intros s.
  unfold split_into_section_paragraphs.
  destruct (negb (truthy extract_text)); [constructor|].
  destruct (seg_inv_fold (re_split BLANK_RE (strip extract_text)) seg_init
              seg_inv_init s) as [-> _].
  apply NoDup_fmap_2; [apply Nat2Z.inj'|apply NoDup_seq].
Qed.

(** X4. The texts of the rows, put end to end in the order of the rows, are
    a subsequence of the input text: the segmenter keeps the order of the
    source and makes up no character. *)
Theorem row_texts_from_input (extract_text : str) :
  concat (text_of <$> split_into_section_paragraphs extract_text)
  `sublist_of` extract_text.
Proof.
  unfold split_into_section_paragraphs.
  destruct (negb (truthy extract_text)); [apply sublist_nil_l|].
  destruct (segment_fold_texts (re_split BLANK_RE (strip extract_text)) seg_init)
    as (new & -> & Hsub).
  cbn [rows seg_init fmap list_fmap app].
  transitivity (concat (strip <$> re_split BLANK_RE (strip extract_text)));
    [by apply concat_sublist|].
  transitivity (concat (re_split BLANK_RE (strip extract_text)));
    [apply concat_strip_sublist|].
  transitivity (strip extract_text); [|apply strip_sublist].
  destruct (split_scan_sublist BLANK_RE 0 0 [] (strip extract_text))
    as (t & Ht & Hsub').
  unfold re_split. by rewrite Ht.
Qed.

(** ** Blocks and blank lines *)

Section blank_lines.

Lemma first_some_elem {A B} (f : A → option B) l x y :
  x ∈ l → f x = Some y → is_Some (first_some f l).
Proof.
  induction l as [|z l IH]; intros Hin Hx; [by apply elem_of_nil in Hin|].
  cbn. destruct (f z) eqn:Hz; [done|].
  apply elem_of_cons in Hin as [->|Hin]; [congruence|by apply IH].
Qed.

Lemma elem_of_counts_2 g lo hi n : (lo ≤ n ≤ hi)%nat → n ∈ counts g lo hi.
Proof.
  intros Hn. unfold counts.
  assert (Hseq : n ∈ seq lo (S hi - lo)) by (apply elem_of_seq; lia).
  destruct g; [|done]. by apply list_elem_of_In, in_rev, list_elem_of_In in Hseq.
Qed.

Lemma blank_line_at_app s t : blank_line_at s → blank_line_at (s ++ t).
Proof.
  intros (w & u & -> & Hw). exists w, (u ++ t). split; [|done].
  cbn. by rewrite <- app_assoc.
Qed.

(** [BLANK_RE] finds a separator wherever one opens the subject. *)
Lemma exec_blank_complete pos s :
  blank_line_at s → is_Some (exec BLANK_RE pos s ∅).
Proof.
  intros (w & t & -> & Hw). unfold BLANK_RE. cbn [exec].
  rewrite char_eqb_refl.
  apply (first_some_elem _ _ (length w) (S (S (pos + length w)), ∅)).
  - apply elem_of_counts_2. split; [lia|].
    rewrite run_length_app by done. lia.
  - rewrite drop_app_length. cbn [set_group]. by rewrite char_eqb_refl.
Qed.

Lemma exec_blank_advance pos s e gs :
  exec BLANK_RE pos s ∅ = Some (e, gs) → (pos < e)%nat.
Proof.
  unfold BLANK_RE. cbn [exec]. destruct s as [|c s]; [done|].
  destruct (char_eqb c newline); [|done]. intros Hex.
  apply first_some_Some in Hex as (n & _ & Hn).
  destruct (drop n s) as [|d u]; [done|].
  destruct (char_eqb d newline); [|done]. injection Hn as <- _. lia.
Qed.

Lemma split_scan_no_blank pos skip piece s :
  (skip ≠ 0%nat → piece = []) →
  (∀ i, (i < length piece)%nat → ¬ blank_line_at (drop i (rev piece) ++ s)) →
  Forall (fun p => ¬ has_blank_line p) (split_scan BLANK_RE pos skip piece s).
Proof.
  revert pos skip piece.
  induction s as [|c s IH]; intros pos skip piece Hskip Hinv.
  - cbn. constructor; [|done]. intros [i Hi].
    destruct (decide (i < length piece)%nat) as [Hlt|Hge].
    + apply (Hinv i Hlt). by rewrite app_nil_r.
    + rewrite drop_ge in Hi by (rewrite length_rev; lia).
      by destruct Hi as (w & t & ? & _).
  - cbn [split_scan]. destruct skip as [|k].
    + assert (Hemit : ¬ has_blank_line (rev piece)).
      { intros [i Hi].
        destruct (decide (i < length piece)%nat) as [Hlt|Hge].
        - apply (Hinv i Hlt). by apply blank_line_at_app.
        - rewrite drop_ge in Hi by (rewrite length_rev; lia).
          by destruct Hi as (w & t & ? & _). }
      destruct (exec BLANK_RE pos (c :: s) ∅) as [[e gs]|] eqn:Hex.
      * apply exec_blank_advance in Hex. apply Nat.ltb_lt in Hex. rewrite Hex.
        constructor; [done|]. apply IH; [done|]. cbn. lia.
      * apply IH; [done|]. intros i Hi. cbn [length] in Hi. cbn [rev].
        destruct (decide (i < length piece)%nat) as [Hlt|Hge].
        -- rewrite drop_app_le by (rewrite length_rev; lia).
           rewrite <- app_assoc. by apply Hinv.
        -- replace i with (length (rev piece) + 0)%nat by (rewrite length_rev; lia).
           rewrite drop_app_add. cbn. intros Hblank.
           destruct (exec_blank_complete pos (c :: s) Hblank) as [y Hy]. congruence.
    + rewrite (Hskip ltac:(done)). apply IH; [done|]. cbn. lia.
Qed.

Lemma has_blank_line_strip s : has_blank_line (strip s) → has_blank_line s.
Proof.
  intros [i Hi]. destruct (strip_decomp s) as (l & r & Heq & _ & _).
  exists (length l + i)%nat. rewrite Heq at 1.
  rewrite drop_app_add.
  destruct (decide (i ≤ length (strip s))%nat) as [Hle|Hgt].
  - rewrite drop_app_le by done. by apply blank_line_at_app.
  - rewrite drop_ge in Hi by lia. by destruct Hi as (w & t & ? & _).
Qed.

End blank_lines.

(** X5. No paragraph holds a separator of blocks: in the text of a row no
    newline is followed, across white space only, by another newline. *)
Theorem rows_without_blank_line (extract_text : str) :
  Forall (fun r => ¬ has_blank_line (text_of r))
         (split_into_section_paragraphs extract_text).
Proof.
  unfold split_into_section_paragraphs.
  destruct (negb (truthy extract_text)); [constructor|].
  destruct (segment_fold_texts (re_split BLANK_RE (strip extract_text)) seg_init)
    as (new & Hrows & Hsub).
  cbn [rows seg_init fmap list_fmap app] in Hrows.
  apply (proj1 (Forall_fmap text_of (fun t => ¬ has_blank_line t) _)).
  rewrite Hrows. apply Forall_forall. intros t Ht.
  apply (elem_of_sublist _ _ _ Ht) in Hsub.
  apply list_elem_of_fmap in Hsub as (p & -> & Hp).
  intros Hblank. apply has_blank_line_strip in Hblank.
  pose proof (split_scan_no_blank 0 0 [] (strip extract_text)) as Hall.
  rewrite Forall_forall in Hall. apply (Hall ltac:(done) ltac:(cbn; lia) p Hp Hblank).
Qed.

(** X6. A heading with an empty name, a run of signs, white space and the
    same run again such as ["== =="], changes nothing: the current section
    stays and no paragraph is emitted. *)
Theorem heading_without_name (st : seg_state) (k : nat) (ws : str) :
  (1 ≤ k)%nat → ws ≠ [] →
  Forall (fun c => is_space c = true) ws →
  segment_block st (replicate k (chr "=") ++ ws ++ replicate k (chr "=")) = st.
Proof.
  intros Hk Hne Hws.
  set (mk := replicate k (chr "=")).
  assert (Hmk_all : Forall (fun c => is_eq_sign c = true) mk)
    by (apply Forall_replicate; by apply is_eq_sign_eq).
  assert (Hmk_len : length mk = k) by apply length_replicate.
  assert (Hmk_head : ∃ c mk', mk = c :: mk' ∧ is_space c = false).
  { subst mk. destruct k as [|k]; [lia|]. by exists (chr "="), (replicate k (chr "=")). }
  assert (Hstrip : strip (mk ++ ws ++ mk) = mk ++ ws ++ mk).
  { subst mk. destruct k as [|k]; [lia|].
    apply (strip_keep _ (chr "=") (chr "=")); [done| |done..].
    rewrite replicate_S_end, !app_assoc. apply last_snoc. }
  assert (Hm : re_match HEADING_RE (mk ++ ws ++ mk)
               = Some (<[2%nat := []]> (<[1%nat := mk]> ∅))).
  { enough (∃ e, exec HEADING_RE 0 (mk ++ ws ++ mk) ∅
                 = Some (e, <[2%nat := []]> (<[1%nat := mk]> ∅))) as [e He].
    { unfold re_match. by rewrite He. }
    eexists. unfold HEADING_RE. apply exec_bol.
    assert (Hrun1 : run_length is_eq_sign (mk ++ ws ++ mk) = k).
    { rewrite <- Hmk_len. apply run_length_exact; [done|]. right.
      destruct Hws as [|x ws Hx _]; [done|].
      exists x, (ws ++ mk). split; [done|]. by apply space_not_eq_sign. }
    apply exec_rep_greedy_top; rewrite Hrun1; [done|].
    rewrite drop_app_length', take_app_length' by done. cbn [set_group].
    assert (Hrun2 : run_length is_space (ws ++ mk) = length ws).
    { apply run_length_exact; [done|]. right.
      destruct Hmk_head as (c & mk' & -> & Hc). by exists c, mk'. }
    apply exec_rep_greedy_top; rewrite Hrun2; [lia|].
    rewrite drop_app_length. cbn [set_group].
    apply (exec_rep_lazy _ _ _ _ _ _ _ 0); [lia|intros i Hi; lia|].
    cbn [drop take set_group].
    apply (tail_match _ [] mk); [done|done|].
    by rewrite lookup_insert_ne, lookup_insert_eq. }
  unfold segment_block. rewrite Hstrip, Hm.
  subst mk. destruct k as [|k]; [lia|]. cbn [replicate app truthy negb].
  unfold group. rewrite lookup_insert_eq. cbn. by destruct st.
Qed.

Lemma heading_without_name_witness :
  segment_block (SegState (py "Life") ∅ []) (py "== ==")
  = SegState (py "Life") ∅ [].
Proof.
  apply (heading_without_name (SegState (py "Life") ∅ []) 2 (py " ")).
  - lia.
  - done.
  - repeat constructor.
Defined.

(** ** More on the identifier *)

Section identifier_more.

Lemma hex_digit_is_hex d : is_hex_digit (hex_digit d) = true.
Proof.
  unfold hex_digit. generalize (Z.to_nat d). intros n.
  do 16 (destruct n as [|n]; [reflexivity|]). by destruct n.
Qed.

(** The version field of a name-based identifier is 5. *)
Lemma uuid5_version namespace name :
  Z.land (Z.shiftr (uuid5 namespace name) 76) 0xF = 5.
Proof.
  unfold uuid5. generalize (be_int (take 16 (sha1 (namespace ++ utf8 name)))).
  intros y. cbv zeta.
  rewrite Z.shiftr_lor, Z.shiftr_land, Z.land_lor_distr_l, <- Z.land_assoc.
  change (Z.land (Z.shiftr (Z.lnot (Z.shiftl 0xf000 64)) 76) 0xF) with 0.
  change (Z.land (Z.shiftr (Z.shiftl 5 76) 76) 0xF) with 5.
  by rewrite Z.land_0_r.
Qed.

Lemma str_of_uuid_length int : length (str_of_uuid int) = 36%nat.
Proof. reflexivity. Qed.

End identifier_more.

(** X7. An identifier is a string of 36 characters in the layout of a
    UUID: hyphens at the offsets 8, 13, 18 and 23, the version digit 5 at
    offset 14, and lower-case hexadecimal digits everywhere else. *)
Theorem id_format (title section : str) (paragraph_index : Z) (text : str) :
  length (make_paragraph_id title section paragraph_index text) = 36%nat
  ∧ make_paragraph_id title section paragraph_index text !! 14%nat = Some (chr "5")
  ∧ ∀ (i : nat) (c : char),
      make_paragraph_id title section paragraph_index text !! i = Some c →
      if bool_decide (i ∈ [8; 13; 18; 23]%nat) then c = chr "-"
      else is_hex_digit c = true.
Proof.
  unfold make_paragraph_id.
  pose proof (uuid5_version NAMESPACE_URL
    (title ++ py "||" ++ section ++ py "||" ++ str_of_int paragraph_index
     ++ py "||" ++ take 120 text)) as Hversion.
  revert Hversion.
  generalize (uuid5 NAMESPACE_URL
    (title ++ py "||" ++ section ++ py "||" ++ str_of_int paragraph_index
     ++ py "||" ++ take 120 text)).
  intros int Hversion. split; [reflexivity|]. split.
  - change (str_of_uuid int !! 14%nat)
      with (Some (hex_digit (Z.land (Z.shiftr int 76) 0xF))).
    by rewrite Hversion.
  - intros i c.
    do 36 (destruct i as [|i];
           [intros [= <-]; first [reflexivity | apply hex_digit_is_hex]|]).
    intros Hnone. discriminate Hnone.
Qed.

(** X8. The key joins its parts with ["||"] and does not escape them: a
    title that ends in a separator and a section that starts with one give
    the same identifier. *)
Theorem id_separator_not_escaped (a b c : str) (paragraph_index : Z) (text : str) :
  make_paragraph_id (a ++ py "||" ++ b) c paragraph_index text
  = make_paragraph_id a (b ++ py "||" ++ c) paragraph_index text.
Proof. unfold make_paragraph_id. by rewrite <- !app_assoc. Qed.

(** ** More on the ledger and the writer *)

(** X9. The ledger never holds the empty string. *)
Theorem ledger_without_empty_id (csv_path : option csv_file) :
  [] ∉ load_existing_ids csv_path.
Proof.
  destruct csv_path as [f|]; cbn [load_existing_ids]; [|apply not_elem_of_empty].
  rewrite elem_of_load_rows. intros [Hin|(row & _ & _ & Hne)]; [|done].
  by apply elem_of_empty in Hin.
Qed.

(** X10. Records added at the end of a table that has its header row take
    no identifier out of the ledger read from it. *)
Theorem ledger_grows_with_table (f more : csv_file) :
  f ≠ [] →
  load_existing_ids (Some f) ⊆ load_existing_ids (Some (f ++ more)).
Proof.
  intros Hf. destruct f as [|header data]; [done|].
  cbn [load_existing_ids dict_reader app].
  rewrite filter_app, fmap_app, fold_left_app.
  intros x Hx. apply elem_of_load_rows. by left.
Qed.

Lemma ledger_grows_with_table_witness :
  load_existing_ids (Some [ [py "id"]; [py "u1"] ])
  ⊆ load_existing_ids (Some ([ [py "id"]; [py "u1"] ] ++ [ [py "u2"] ])).
Proof. apply ledger_grows_with_table. done. Defined.

(** X11. A table whose header has no [id] column gives an empty ledger,
    whatever its rows hold. *)
Theorem ledger_without_id_column (header : list str) (data : csv_file) :
  py "id" ∉ header →
  load_existing_ids (Some (header :: data)) = ∅.
Proof.
  intros Hid. apply elem_of_equiv_empty_L. intros x.
  cbn [load_existing_ids dict_reader]. rewrite elem_of_load_rows.
  intros [Hin|(row & Hrow & Hhas & _)]; [by apply elem_of_empty in Hin|].
  apply list_elem_of_fmap in Hrow as (record & -> & _).
  by rewrite dict_row_notin in Hhas.
Qed.

Lemma ledger_without_id_column_witness :
  load_existing_ids (Some [ [py "title"; py "text"]; [py "id"; py "u1"] ]) = ∅.
Proof.
  apply ledger_without_id_column.
  intros Hin. apply (bool_decide_pack _) in Hin. vm_compute in Hin. exact Hin.
Defined.

(** X12. Writing then reading, through the text of the file: when
    [append_rows] creates a file for one dictionary, [csv.DictReader] reads
    back from it one row, which holds the dictionary's value for every
    field name (the empty string where the dictionary has no such key) and
    nothing under any other key. The field names must not be empty, and the
    cells must be within the field size limit of the reader. *)
Theorem written_row_read_back (fieldnames : list str) (rowdict : gmap str str)
    (text : str) :
  fieldnames ≠ [] → fits fieldnames → fits (row_cells fieldnames rowdict) →
  append_rows None [rowdict] fieldnames = (Some text, Some 1%nat) →
  ∃ row,
    dict_reader <$> csv_reader text = Some [row]
    ∧ ∀ key, row !! key
             = if decide (key ∈ fieldnames)
               then Some (Some (default [] (rowdict !! key)))
               else None.
Proof.
  intros Hne Hfit Hfit' Happend.
  assert (Htext : text = csv_text [fieldnames; row_cells fieldnames rowdict]).
  { unfold append_rows in Happend. cbv zeta in Happend.
    rewrite bool_decide_eq_false_2 in Happend by (by intros [? ?]).
    rewrite writeheader_text in Happend. cbn [write_rows] in Happend.
    unfold DictWriter_writerow, dict_to_list in Happend.
    case_bool_decide; [|done]. injection Happend as <-.
    cbn. by rewrite app_nil_r. }
  exists (dict_row fieldnames (row_cells fieldnames rowdict)). split.
  - rewrite Htext, csv_reader_written.
    rewrite decide_True by (by repeat constructor).
    cbn [fmap option_fmap option_map dict_reader]. f_equal.
    rewrite filter_cons_True; [done|]. by destruct fieldnames.
  - intros key. destruct (decide (key ∈ fieldnames)) as [Hin|Hnotin];
      [|by apply dict_row_notin].
    unfold dict_row, row_cells.
    rewrite length_fmap, drop_all. cbn [fold_left].
    rewrite (zip_with_self (fun k => default [] (rowdict !! k))).
    by rewrite (fold_insert_same Some), decide_True.
Qed.

Lemma written_row_read_back_witness :
  ∃ row,
    dict_reader <$> csv_reader (py "id,text" ++ lineterminator
                                ++ py "u1," ++ [quotechar] ++ py "a, b" ++ [quotechar]
                                ++ lineterminator)
    = Some [row]
    ∧ ∀ key, row !! key
             = if decide (key ∈ [py "id"; py "text"])
               then Some (Some (default []
                                  (({[py "id" := py "u1"; py "text" := py "a, b"]}
                                    : gmap str str) !! key)))
               else None.
Proof.
  apply (written_row_read_back [py "id"; py "text"]
           {[py "id" := py "u1"; py "text" := py "a, b"]}).
  - done.
  - repeat constructor; vm_compute; discriminate.
  - repeat constructor; vm_compute; discriminate.
  - vm_compute. reflexivity.
Defined.

(** X13. What [csv.writer] writes for a list of records, [csv.reader] reads
    back as the same records when every cell is within the field size limit
    of the reader; when a cell is over the limit the reader raises. *)
Theorem csv_round_trip (records : csv_file) :
  csv_reader (csv_text records)
  = if decide (Forall fits records) then Some records else None.
Proof. apply csv_reader_written. Qed.

(** X14. A row with a key that is not a field name makes [append_rows]
    raise [ValueError]; the header, when the file was missing, and the rows
    before that row are in the file by then, and no row after it is. *)
Theorem append_rows_wrong_key (out_csv : option str)
    (rows1 rows2 : list (gmap str str)) (r : gmap str str)
    (fieldnames : list str) (key value : str) :
  Forall (map_Forall (fun key (_ : str) => key ∈ fieldnames)) rows1 →
  r !! key = Some value → key ∉ fieldnames →
  append_rows out_csv (rows1 ++ r :: rows2) fieldnames
  = (Some (base_text fieldnames out_csv ++ csv_text (row_cells fieldnames <$> rows1)),
     None).
Proof.
  intros Hrows1 Hkey Hnotin.
  assert (Hloop : ∀ f n,
            write_rows fieldnames f (rows1 ++ r :: rows2) n
            = (f ++ csv_text (row_cells fieldnames <$> rows1), None)).
  { induction Hrows1 as [|r1 rows1 Hr1 _ IH]; intros f n.
    - cbn [app write_rows]. unfold DictWriter_writerow, dict_to_list.
      rewrite bool_decide_eq_false_2.
      + cbn. by rewrite app_nil_r.
      + intros Hall. by apply Hnotin, (Hall key value).
    - cbn [app write_rows]. unfold DictWriter_writerow, dict_to_list.
      rewrite bool_decide_eq_true_2 by done. rewrite IH.
      by rewrite fmap_cons, csv_text_cons, <- app_assoc. }
  unfold append_rows. cbv zeta.
  destruct out_csv as [text|]; cbn [default from_option id base_text].
  - rewrite bool_decide_eq_true_2 by done. by rewrite Hloop.
  - rewrite bool_decide_eq_false_2 by (by intros [? ?]).
    by rewrite writeheader_text, Hloop.
Qed.

Lemma append_rows_wrong_key_witness :
  append_rows None
    ([ {[py "id" := py "a"]} ] ++ {[py "id" := py "b"; py "zz" := py "1"]}
     :: [ {[py "id" := py "c"]} ])
    [py "id"; py "t"]
  = (Some (base_text [py "id"; py "t"] None
           ++ csv_text (row_cells [py "id"; py "t"] <$> [ {[py "id" := py "a"]} ])),
     None).
Proof.
  apply (append_rows_wrong_key None _ _ _ _ (py "zz") (py "1")).
  - constructor; [|constructor]. apply map_Forall_singleton.
    apply list_elem_of_here.
  - apply (bool_decide_unpack _). vm_compute. exact I.
  - intros Hin. apply (bool_decide_pack _) in Hin. vm_compute in Hin. exact Hin.
Defined.

(** The file of the witness, as Python leaves it. *)
Example append_rows_wrong_key_text :
  append_rows None
    [ {[py "id" := py "a"]}; {[py "id" := py "b"; py "zz" := py "1"]};
      {[py "id" := py "c"]} ]
    [py "id"; py "t"]
  = (Some (py "id,t" ++ lineterminator ++ py "a," ++ lineterminator), None).
Proof. vm_compute. reflexivity. Qed.

(** X15. A run only adds characters at the end of the output file: the
    file comes out as it was, with no new row, or as its old text (the
    header line when it was missing) followed by the line of each new row,
    in order. When the old text is made of complete records and the new
    cells are within the field size limit, the records of the table are the
    old ones followed by one for each new row. The total the run reports is
    the number of new rows. *)
Theorem run_extends_table (a : args) (fetch : str → option str) (titles : list str)
    (file : option str) :
  (out_csv (main_loop a fetch titles file) = file
   ∧ all_new_rows (main_loop a fetch titles file) = []
   ∨ out_csv (main_loop a fetch titles file)
     = Some (base_text fieldnames file
             ++ csv_text (row_cells fieldnames
                            <$> all_new_rows (main_loop a fetch titles file))))
  ∧ total_added (main_loop a fetch titles file)
    = length (all_new_rows (main_loop a fetch titles file))
  ∧ ∀ text records,
      file = Some text → holds_records text records →
      Forall fits (row_cells fieldnames
                     <$> all_new_rows (main_loop a fetch titles file)) →
      ∃ text',
        out_csv (main_loop a fetch titles file) = Some text'
        ∧ holds_records text'
            (records ++ (row_cells fieldnames
                           <$> all_new_rows (main_loop a fetch titles file))).
Proof.
  assert (Hshape :
    (out_csv (main_loop a fetch titles file) = file
     ∧ all_new_rows (main_loop a fetch titles file) = []
     ∨ out_csv (main_loop a fetch titles file)
       = Some (base_text fieldnames file
               ++ csv_text (row_cells fieldnames
                              <$> all_new_rows (main_loop a fetch titles file))))
    ∧ total_added (main_loop a fetch titles file)
      = length (all_new_rows (main_loop a fetch titles file))).
  { unfold main_loop. destruct (read_csv file) as [csv_path|]; [|split; [by left|done]].
    destruct (run_trace a fetch titles
                (RunState (load_existing_ids csv_path) [] 0 file [] None))
      as (new & H1 & H2 & _ & H4 & _); [done|done|].
    cbn [all_new_rows total_added out_csv app] in H1, H2, H4.
    rewrite H1, H2. split; [|done].
    destruct H4 as [(_ & -> & ->)|[_ ->]]; [by left|by right]. }
  destruct Hshape as [Hfile Htotal]. split; [done|]. split; [done|].
  intros text records -> Hholds Hfit.
  destruct Hfile as [[-> ->]| ->].
  - exists text. split; [done|]. by rewrite app_nil_r.
  - eexists. split; [done|]. by apply holds_records_extend.
Qed.

(** X16. When the run starts from a missing table, or from a text of
    complete records whose header has [id] as its first column and only
    there, and every cell it writes is within the field size limit of the
    reader, the ledger the run ends with is the ledger a next run loads from
    the table it leaves; it holds every identifier the table had at the
    start, and the table it leaves can be extended in the same way. *)
Theorem ledger_matches_table (a : args) (fetch : str → option str)
    (titles : list str) (file : option str) :
  table_ok file →
  Forall fits (row_cells fieldnames <$> all_new_rows (main_loop a fetch titles file)) →
  (∃ csv_path,
     read_csv (out_csv (main_loop a fetch titles file)) = Some csv_path
     ∧ load_existing_ids csv_path = existing_ids (main_loop a fetch titles file))
  ∧ (∀ csv_path, read_csv file = Some csv_path →
       load_existing_ids csv_path ⊆ existing_ids (main_loop a fetch titles file))
  ∧ table_ok (out_csv (main_loop a fetch titles file)).
Proof.
  intros Htable. destruct (read_table_ok file Htable) as (csv_path & Hread & _).
  unfold main_loop. rewrite Hread.
  destruct (run_leaves_table a fetch titles file csv_path Htable Hread)
    as (_ & _ & _ & Hsub & csv_path' & Hread' & Hload & Hok).
  intros Hfit. rewrite decide_True in Hread' by done.
  split; [by exists csv_path'|]. split; [|by apply Hok].
  by intros ? [= <-].
Qed.

Lemma ledger_matches_table_witness :
  (∃ csv_path,
     read_csv (out_csv (main_loop (Args 1 3) three_paragraphs [py "T"] None))
     = Some csv_path
     ∧ load_existing_ids csv_path
       = existing_ids (main_loop (Args 1 3) three_paragraphs [py "T"] None))
  ∧ (∀ csv_path, read_csv None = Some csv_path →
       load_existing_ids csv_path
       ⊆ existing_ids (main_loop (Args 1 3) three_paragraphs [py "T"] None))
  ∧ table_ok (out_csv (main_loop (Args 1 3) three_paragraphs [py "T"] None)).
Proof.
  apply ledger_matches_table.
  - by left.
  - apply (bool_decide_unpack _). vm_compute. exact I.
Defined.

(** X17. The identifiers of the rows a run writes are pairwise distinct, and
    none of them was in the ledger loaded at the start of the run. *)
Theorem new_ids_fresh (a : args) (fetch : str → option str) (titles : list str)
    (file : option str) :
  NoDup (row_id <$> all_new_rows (main_loop a fetch titles file))
  ∧ ∀ x csv_path,
      x ∈ row_id <$> all_new_rows (main_loop a fetch titles file) →
      read_csv file = Some csv_path →
      x ∉ load_existing_ids csv_path.
Proof.
  unfold main_loop. destruct (read_csv file) as [csv_path|].
  - destruct (run_trace a fetch titles
                (RunState (load_existing_ids csv_path) [] 0 file [] None))
      as (new & H1 & _ & _ & _ & _ & H6 & H7 & _); [done|done|].
    cbn [all_new_rows existing_ids app] in H1, H7. rewrite H1.
    split; [done|]. intros x ? Hx [= <-]. by apply H7.
  - split; [constructor|]. intros x ? Hx. by apply elem_of_nil in Hx.
Qed.

(** X18. Every row a run writes was built from a paragraph that the
    segmenter found in the fetched text of one of the titles and that is at
    least [min_chars] characters long; its identifier is the one of that
    title, section, index and paragraph. *)
Theorem new_rows_from_articles (a : args) (fetch : str → option str)
    (titles : list str) (file : option str) :
  Forall (from_article a fetch titles) (all_new_rows (main_loop a fetch titles file)).
Proof.
  unfold main_loop. destruct (read_csv file) as [csv_path|]; [|constructor].
  destruct (run_trace a fetch titles
              (RunState (load_existing_ids csv_path) [] 0 file [] None))
    as (new & H1 & _ & _ & _ & _ & _ & _ & H8 & _); [done|done|].
  cbn [all_new_rows app] in H1. by rewrite H1.
Qed.

(** X19. The record written for a row has six cells in the order of the
    field names: the identifier, the title, a URL without a space, the
    section, the index in decimal, and a text without a newline and
    without white space at either end. *)
Theorem written_record (pid title section : str) (para_idx : Z) (para : str) :
  ∃ url text,
    dict_to_list fieldnames (make_row pid title section para_idx para)
    = Some [pid; title; url; section; str_of_int para_idx; text]
    ∧ (chr " " ∉ url)
    ∧ (newline ∉ text)
    ∧ strip text = text.
Proof.
  exists (py "https://en.wikipedia.org/wiki/" ++ replace_char (chr " ") (chr "_") title),
         (strip (replace_char newline (chr " ") para)).
  split; [|split; [|split]].
  - unfold dict_to_list. rewrite bool_decide_eq_true_2 by apply make_row_keys.
    reflexivity.
  - intros [Hin|Hin]%elem_of_app.
    + apply (bool_decide_pack _) in Hin. vm_compute in Hin. exact Hin.
    + apply list_elem_of_fmap in Hin as (c & Hc & _).
      destruct (char_eqb c (chr " ")) eqn:Heq; [discriminate Hc|].
      subst c. by rewrite char_eqb_refl in Heq.
  - intros Hin.
    assert (Hall : Forall (fun c => c ≠ newline)
                     (strip (replace_char newline (chr " ") para))).
    { apply Forall_strip, Forall_forall. intros c Hc.
      apply list_elem_of_fmap in Hc as (c' & -> & _).
      destruct (char_eqb c' newline) eqn:Heq; [discriminate|].
      intros ->. by rewrite char_eqb_refl in Heq. }
    rewrite Forall_forall in Hall. by apply (Hall newline Hin).
  - apply strip_idem.
Qed.

(** X20. The total a run reports at its end is the sum of the counts of
    its per-title lines. *)
Theorem total_is_sum_of_counts (a : args) (fetch : str → option str)
    (titles : list str) (file : option str) :
  total_added (main_loop a fetch titles file)
  = sum_list (snd <$> stdout (main_loop a fetch titles file)).
Proof.
  unfold main_loop. destruct (read_csv file) as [csv_path|]; [|done].
  destruct (run_trace a fetch titles
              (RunState (load_existing_ids csv_path) [] 0 file [] None))
    as (new & _ & H2 & _ & _ & _ & _ & _ & _ & H9); [done|done|].
  by rewrite H2, H9.
Qed.

(** ** Titles *)

Section titles.

Lemma splitlines_scan_no_break line s :
  Forall (fun c => is_linebreak c = false) line →
  Forall (Forall (fun c => is_linebreak c = false)) (splitlines_scan line s).
Proof.
  remember (length s) as n eqn:Hn. revert s line Hn.
  induction n as [n IH] using lt_wf_ind. intros s line Hn Hline.
  assert (Hrev : Forall (fun c => is_linebreak c = false) (rev line)).
  { apply Forall_forall. intros c Hc. rewrite Forall_forall in Hline.
    apply Hline. by apply list_elem_of_In, in_rev, list_elem_of_In. }
  destruct s as [|c s]; cbn [splitlines_scan].
  - destruct (truthy line); repeat constructor; done.
  - cbn [length] in Hn. destruct (is_linebreak c) eqn:Hc.
    + destruct s as [|d s'].
      * repeat constructor; done.
      * cbn [length] in Hn.
        destruct (char_eqb c carriage_return && char_eqb d newline);
          (constructor; [done|]).
        -- apply (IH (length s')); [lia|done|constructor].
        -- apply (IH (length (d :: s'))); [cbn; lia|done|constructor].
    + apply (IH (length s)); [lia|done|]. by constructor.
Qed.

Lemma split_char_scan_no_sep sep piece s :
  sep ∉ piece → Forall (fun p => sep ∉ p) (split_char_scan sep piece s).
Proof.
  revert piece. induction s as [|c s IH]; intros piece Hpiece.
  - cbn. constructor; [|done]. intros Hin. apply Hpiece.
    by apply list_elem_of_In, in_rev, list_elem_of_In in Hin.
  - cbn. destruct (char_eqb c sep) eqn:Hc.
    + constructor.
      * intros Hin. apply Hpiece.
        by apply list_elem_of_In, in_rev, list_elem_of_In in Hin.
      * apply IH. apply not_elem_of_nil.
    + apply IH. intros [->|Hin]%elem_of_cons; [|done].
      by rewrite char_eqb_refl in Hc.
Qed.

Lemma split_char_scan_end sep piece t :
  sep ∉ t → split_char_scan sep piece t = [rev piece ++ t].
Proof.
  revert piece. induction t as [|c t IH]; intros piece Ht.
  - cbn. by rewrite app_nil_r.
  - apply not_elem_of_cons in Ht as [Hne Ht]. cbn.
    destruct (char_eqb c sep) eqn:Hc; [by apply char_eqb_eq in Hc|].
    rewrite IH by done. cbn [rev]. by rewrite <- app_assoc.
Qed.

Lemma split_char_scan_app sep piece t rest :
  sep ∉ t →
  split_char_scan sep piece (t ++ sep :: rest)
  = (rev piece ++ t) :: split_char_scan sep [] rest.
Proof.
  revert piece. induction t as [|c t IH]; intros piece Ht.
  - cbn. by rewrite char_eqb_refl, app_nil_r.
  - apply not_elem_of_cons in Ht as [Hne Ht]. cbn.
    destruct (char_eqb c sep) eqn:Hc; [by apply char_eqb_eq in Hc|].
    rewrite IH by done. cbn [rev]. by rewrite <- app_assoc.
Qed.

Lemma split_char_join sep (ts : list str) :
  ts ≠ [] → Forall (fun t => sep ∉ t) ts →
  split_char sep (join [sep] ts) = ts.
Proof.
  intros Hne Hts. unfold split_char.
  induction Hts as [|t ts Ht Hts IH]; [done|].
  destruct ts as [|t' ts].
  - cbn [join]. by rewrite split_char_scan_end.
  - cbn [join]. cbn [app]. rewrite split_char_scan_app by done.
    cbn [rev app]. f_equal. by apply IH.
Qed.

Lemma split_char_scan_Forall (P : char → Prop) sep piece s :
  Forall P piece → Forall P s → Forall (Forall P) (split_char_scan sep piece s).
Proof.
  intros Hpiece Hs. revert piece Hpiece.
  induction Hs as [|c s Hc _ IH]; intros piece Hpiece.
  - cbn. constructor; [|done]. apply Forall_forall. intros c Hc.
    rewrite Forall_forall in Hpiece.
    apply Hpiece. by apply list_elem_of_In, in_rev, list_elem_of_In.
  - cbn. destruct (char_eqb c sep).
    + constructor; [|by apply IH]. apply Forall_forall. intros d Hd.
      rewrite Forall_forall in Hpiece.
      apply Hpiece. by apply list_elem_of_In, in_rev, list_elem_of_In.
    + apply IH. by constructor.
Qed.

End titles.

(** X21. Every title read from a titles file is not empty, has no white
    space at either end, does not start with [#] and holds no line break. *)
Theorem file_titles_clean (text : str) :
  Forall (fun t => clean_title t
                   ∧ starts_with (py "#") t = false
                   ∧ Forall (fun c => is_linebreak c = false) t)
         (read_titles_from_file text).
Proof.
  apply Forall_forall. intros t Ht. unfold read_titles_from_file in Ht.
  apply list_elem_of_filter in Ht as [[Htruthy Hhash] Ht].
  apply list_elem_of_fmap in Ht as (line & -> & Hline).
  split; [split|split; [done|]].
  - by destruct (strip line).
  - apply strip_idem.
  - apply Forall_strip.
    pose proof (splitlines_scan_no_break [] text ltac:(constructor)) as Hall.
    rewrite Forall_forall in Hall. by apply Hall.
Qed.

(** X22. Every title taken from [--titles] is not empty, has no white space
    at either end and holds no ["|"]. *)
Theorem arg_titles_clean (titles : str) :
  Forall (fun t => clean_title t ∧ chr "|" ∉ t) (titles_from_arg titles).
Proof.
  unfold titles_from_arg. destruct (truthy titles); [|constructor].
  apply Forall_forall. intros t Ht.
  apply list_elem_of_fmap in Ht as (piece & -> & Hpiece).
  apply list_elem_of_filter in Hpiece as [Htruthy Hpiece].
  split; [split|].
  - by destruct (strip piece).
  - apply strip_idem.
  - pose proof (split_char_scan_no_sep (chr "|") [] titles ltac:(apply not_elem_of_nil))
      as Hall.
    rewrite Forall_forall in Hall. specialize (Hall piece Hpiece).
    assert (Hforall : Forall (fun c => c ≠ chr "|") (strip piece)).
    { apply Forall_strip, Forall_forall. intros c Hc ->. done. }
    intros Hin. rewrite Forall_forall in Hforall. by apply (Hforall _ Hin).
Qed.

(** X23. Titles that are clean and hold no ["|"], joined with ["|"], are
    given back by [--titles] as they were, in their order. *)
Theorem arg_titles_round_trip (ts : list str) :
  Forall (fun t => clean_title t ∧ chr "|" ∉ t) ts →
  titles_from_arg (join (py "|") ts) = ts.
Proof.
  intros Hts. destruct ts as [|t ts]; [done|].
  assert (Hsplit : split_char (chr "|") (join (py "|") (t :: ts)) = t :: ts).
  { apply split_char_join; [done|]. eapply Forall_impl; [exact Hts|]. by intros ? [_ ?]. }
  unfold titles_from_arg. rewrite Hsplit.
  assert (Htruthy : truthy (join (py "|") (t :: ts)) = true).
  { apply Forall_cons in Hts as [[[Hne _] _] _].
    destruct t as [|c t]; [done|]. by destruct ts. }
  rewrite Htruthy.
  assert (Hkeep : filter (fun t0 : str => truthy (strip t0) = true) (t :: ts) = t :: ts).
  { clear Hsplit Htruthy. induction Hts as [|x l [[Hne Hstrip] _] _ IH]; [done|].
    rewrite filter_cons_True; [by rewrite IH|]. rewrite Hstrip. by destruct x. }
  rewrite Hkeep.
  clear Hsplit Htruthy Hkeep.
  induction Hts as [|x l [[_ Hstrip] _] _ IH]; [done|].
  rewrite fmap_cons. by rewrite Hstrip, IH.
Qed.

Lemma arg_titles_round_trip_witness :
  titles_from_arg (join (py "|") [py "Ada Lovelace"; py "Alan Turing"])
  = [py "Ada Lovelace"; py "Alan Turing"].
Proof.
  apply arg_titles_round_trip.
  repeat constructor; try done;
    intros Hin; apply (bool_decide_pack _) in Hin; vm_compute in Hin; exact Hin.
Defined.

(** X24. A [--titles] option made of white space and ["|"] only names no
    title: without a titles file the run ends at once with [sys.exit(1)]. *)
Theorem blank_titles_exit (a : args) (fetch : str → option str) (titles : str)
    (file : option str) :
  Forall (fun c => is_space c = true ∨ c = chr "|") titles →
  main a fetch (gather_titles None titles) file = None.
Proof.
  intros Hblank.
  enough (Hnone : titles_from_arg titles = []).
  { unfold gather_titles, main. by rewrite Hnone. }
  unfold titles_from_arg. destruct (truthy titles); [|done].
  pose proof (split_char_scan_Forall _ (chr "|") [] titles ltac:(constructor) Hblank)
    as Hchars.
  pose proof (split_char_scan_no_sep (chr "|") [] titles ltac:(apply not_elem_of_nil))
    as Hbar.
  fold (split_char (chr "|") titles) in Hchars, Hbar.
  induction (split_char (chr "|") titles) as [|p ps IH]; [done|].
  apply Forall_cons in Hchars as [Hp Hchars]. apply Forall_cons in Hbar as [Hp' Hbar].
  rewrite filter_cons_False; [by apply IH|].
  rewrite strip_all_space; [done|].
  apply Forall_forall. intros c Hc. rewrite Forall_forall in Hp.
  destruct (Hp c Hc) as [?| ->]; done.
Qed.

Lemma blank_titles_exit_witness :
  main (Args 1 1) three_paragraphs (gather_titles None (py " | ")) None = None.
Proof.
  apply blank_titles_exit.
  repeat constructor; first [by left | by right].
Defined.
